(** * A contiguous memory allocator: first-fit, best-fit, worst-fit,
      release with local merging, and compaction.

    The development embeds [allocator.c].  The singly linked list of
    [MemoryBlock] nodes hanging off [memory_head] is a [list MemoryBlock];
    a pointer to a node is the position of that node in the list.  The
    two integer types of the C code are kept apart: [start_address] and
    [next_free_address] are [unsigned int] (32 bits), block sizes are
    [size_t] (64 bits on the Windows x64 target the file is written
    for); every arithmetic result is reduced into its type.  [malloc] is
    taken to succeed (the code exits otherwise). *)

From Stdlib Require Import ZArith Ascii String Lia.
From stdpp Require Import base tactics option list.

Local Open Scope Z_scope.

(** ** Machine integers *)

Definition UINT_MODULUS : Z := 2 ^ 32.
Definition SIZE_MODULUS : Z := 2 ^ 64.

(** [#define MAX_MEMORY (4ULL * 1024 * 1024)] *)
Definition MAX_MEMORY : Z := 4 * 1024 * 1024.

(** Conversion to [unsigned int] and to [size_t]. *)
Definition to_uint (z : Z) : Z := z mod UINT_MODULUS.
Definition to_size_t (z : Z) : Z := z mod SIZE_MODULUS.

(** ** Process identifiers *)

(** [char process_id[100]] *)
Definition ID_FIELD_SIZE : nat := 100.

(** The text read back from a field after [strncpy(field, src, n)]: all
    of [src] when it has fewer than [n] characters (the rest of the [n]
    bytes is filled with NUL).  When [src] has [n] characters or more,
    the C function copies the first [n] and writes no terminator; the
    model then reads the [n] characters copied. *)
Fixpoint strncpy (n : nat) (src : string) : string :=
  match n, src with
  | S k, String c rest => String c (strncpy k rest)
  | _, _ => EmptyString
  end.

(** An identifier that [requestMemory] stores whole and terminated:
    fewer characters than the [sizeof(process_id) - 1] it copies.  What
    is said below about the label of an allocated block is said for
    such identifiers. *)
Definition fits_id_field (process_id : string) : Prop :=
  (String.length process_id < ID_FIELD_SIZE - 1)%nat.

(** ** Blocks and the allocator state *)

Record MemoryBlock : Type := mkMemoryBlock {
  start_address : Z;
  size : Z;
  is_allocated : bool;
  process_id : string
}.

Record Allocator : Type := mkAllocator {
  memory_head : list MemoryBlock;
  total_memory_size : Z
}.

Definition set_start (b : MemoryBlock) (a : Z) : MemoryBlock :=
  mkMemoryBlock a (size b) (is_allocated b) (process_id b).

Definition set_size (b : MemoryBlock) (n : Z) : MemoryBlock :=
  mkMemoryBlock (start_address b) n (is_allocated b) (process_id b).

(** [b->is_allocated = 0; strcpy(b->process_id, "FREE")] *)
Definition mark_free (b : MemoryBlock) : MemoryBlock :=
  mkMemoryBlock (start_address b) (size b) false "FREE".

(** [b->is_allocated = 1; strncpy(b->process_id, id, sizeof(b->process_id) - 1)] *)
Definition mark_owned (id : string) (b : MemoryBlock) : MemoryBlock :=
  mkMemoryBlock (start_address b) (size b) true
                (strncpy (ID_FIELD_SIZE - 1) id).

(** [a->size += b->size] *)
Definition absorb (a b : MemoryBlock) : MemoryBlock :=
  set_size a (to_size_t (size a + size b)).

(** A freshly allocated free node. *)
Definition free_block (start sz : Z) : MemoryBlock :=
  mkMemoryBlock start sz false "FREE".

(** ** initializeMemory *)

Definition initializeMemory (memory_size : Z) : Allocator :=
  mkAllocator [free_block 0 memory_size] memory_size.

(** The check of [main] on the size it passes to [initializeMemory]. *)
Definition valid_memory_size (memory_size : Z) : Prop :=
  0 < memory_size <= MAX_MEMORY.

(** ** releaseMemory *)

Inductive ReleaseOutcome : Type :=
| Released
| NoSuchProcess.

(** The test of the scan:
    [current->is_allocated && strcmp(current->process_id, process_id) == 0]. *)
Definition owned_by (id : string) (b : MemoryBlock) : bool :=
  is_allocated b && String.eqb (process_id b) id.

(** The scan of the [while] loop: the position of the first node that
    passes the test, counted from [i]. *)
Fixpoint find_owned (id : string) (i : nat) (l : list MemoryBlock)
  : option nat :=
  match l with
  | [] => None
  | current :: rest =>
      if owned_by id current then Some i else find_owned id (S i) rest
  end.

(** The body run on the node found at position [i]; [prev] is the node
    at position [i - 1] when there is one. *)
Definition release_at (i : nat) (l : list MemoryBlock) : list MemoryBlock :=
  let l1 := alter mark_free i l in
  let '(l2, cur) :=
    match i with
    | S p =>
        match l1 !! p, l1 !! i with
        | Some prev, Some current =>
            if negb (is_allocated prev)
            then (delete i (<[p := absorb prev current]> l1), p)
            else (l1, i)
        | _, _ => (l1, i)
        end
    | O => (l1, i)
    end in
  match l2 !! cur, l2 !! S cur with
  | Some current, Some next =>
      if negb (is_allocated next)
      then delete (S cur) (<[cur := absorb current next]> l2)
      else l2
  | _, _ => l2
  end.

Definition releaseMemory (id : string) (st : Allocator)
  : Allocator * ReleaseOutcome :=
  match find_owned id 0 (memory_head st) with
  | Some i =>
      (mkAllocator (release_at i (memory_head st)) (total_memory_size st),
       Released)
  | None => (st, NoSuchProcess)
  end.

(** ** The three searches *)

(** [!current->is_allocated && current->size >= size] *)
Definition fits (sz : Z) (b : MemoryBlock) : bool :=
  negb (is_allocated b) && (sz <=? size b).

Fixpoint firstFit_from (i : nat) (sz : Z) (l : list MemoryBlock)
  : option nat :=
  match l with
  | [] => None
  | current :: rest =>
      if fits sz current then Some i else firstFit_from (S i) sz rest
  end.

Definition firstFit (sz : Z) (l : list MemoryBlock) : option nat :=
  firstFit_from 0 sz l.

(** [best] is the pointer kept by the loop, together with the node it
    points to (the list is not modified during a search). *)
Fixpoint bestFit_from (best : option (nat * MemoryBlock)) (i : nat) (sz : Z)
  (l : list MemoryBlock) : option (nat * MemoryBlock) :=
  match l with
  | [] => best
  | current :: rest =>
      let smaller :=
        match best with
        | None => true
        | Some (_, b) => size current <? size b
        end in
      bestFit_from (if fits sz current && smaller then Some (i, current)
                    else best)
                   (S i) sz rest
  end.

Definition bestFit (sz : Z) (l : list MemoryBlock) : option nat :=
  fst <$> bestFit_from None 0 sz l.

Fixpoint worstFit_from (worst : option (nat * MemoryBlock)) (i : nat) (sz : Z)
  (l : list MemoryBlock) : option (nat * MemoryBlock) :=
  match l with
  | [] => worst
  | current :: rest =>
      let larger :=
        match worst with
        | None => true
        | Some (_, w) => size w <? size current
        end in
      worstFit_from (if fits sz current && larger then Some (i, current)
                     else worst)
                    (S i) sz rest
  end.

Definition worstFit (sz : Z) (l : list MemoryBlock) : option nat :=
  fst <$> worstFit_from None 0 sz l.

(** ** requestMemory *)

Inductive RequestOutcome : Type :=
| Allocated (bytes : Z) (id : string) (address : Z)
| InsufficientSpace.

(** The [switch] on the strategy character; no case, no block. *)
Definition select_block (strategy : ascii) (sz : Z) (l : list MemoryBlock)
  : option nat :=
  if Ascii.eqb strategy "F" then firstFit sz l
  else if Ascii.eqb strategy "B" then bestFit sz l
  else if Ascii.eqb strategy "W" then worstFit sz l
  else None.

(** Linking [new_block] behind the node at position [i]. *)
Definition insert_after (i : nat) (new_block : MemoryBlock)
  (l : list MemoryBlock) : list MemoryBlock :=
  take (S i) l ++ new_block :: drop (S i) l.

(** The branch taken when a block was found at position [i]. *)
Definition allocate_at (id : string) (sz : Z) (i : nat) (block : MemoryBlock)
  (l : list MemoryBlock) : list MemoryBlock :=
  let l1 :=
    if sz <? size block
    then
      let new_block :=
        free_block (to_uint (start_address block + sz))
                   (to_size_t (size block - sz)) in
      alter (fun b => set_size b sz) i (insert_after i new_block l)
    else l in
  alter (mark_owned id) i l1.

(** A search returns a position of the list it went through, so the
    block it points to is there. *)
Definition requestMemory (id : string) (sz : Z) (strategy : ascii)
  (st : Allocator) : Allocator * RequestOutcome :=
  match select_block strategy sz (memory_head st) with
  | Some i =>
      match memory_head st !! i with
      | Some block =>
          (mkAllocator (allocate_at id sz i block (memory_head st))
                       (total_memory_size st),
           Allocated sz id (start_address block))
      | None => (st, InsufficientSpace)
      end
  | None => (st, InsufficientSpace)
  end.

(** ** compactMemory *)

(** First loop: every allocated node is given the running
    [next_free_address]; the result carries the final cursor and
    [last_allocated_block] (as the position of that node). *)
Fixpoint slide (i : nat) (next_free_address : Z) (last : option nat)
  (l : list MemoryBlock) : list MemoryBlock * Z * option nat :=
  match l with
  | [] => ([], next_free_address, last)
  | current :: rest =>
      if is_allocated current
      then
        let '(rest', n, last') :=
          slide (S i) (to_uint (next_free_address + size current))
                (Some i) rest in
        (set_start current next_free_address :: rest', n, last')
      else
        let '(rest', n, last') := slide (S i) next_free_address last rest in
        (current :: rest', n, last')
  end.

(** Second loop: every free node is unlinked. *)
Fixpoint remove_free (l : list MemoryBlock) : list MemoryBlock :=
  match l with
  | [] => []
  | current :: rest =>
      if negb (is_allocated current) then remove_free rest
      else current :: remove_free rest
  end.

(** After the second loop only allocated nodes are left, so
    [last_allocated_block] is the last node and setting its [next] adds
    the new node at the end (or ends the list there); without an
    allocated node the new node becomes the head. *)
Definition compactMemory (st : Allocator) : Allocator :=
  let '(moved, next_free_address, last_allocated_block) :=
    slide 0 0 None (memory_head st) in
  let kept := remove_free moved in
  let blocks :=
    if next_free_address <? total_memory_size st
    then
      let new_block :=
        free_block next_free_address
                   (to_size_t (total_memory_size st - next_free_address)) in
      match last_allocated_block with
      | Some _ => kept ++ [new_block]
      | None => [new_block]
      end
    else kept in
  mkAllocator blocks (total_memory_size st).

(** ** reportStatus *)

(** What a line of the report shows of a block: first address, last
    address, and the owner or "Unused". *)
Definition label (b : MemoryBlock) : string :=
  if is_allocated b then process_id b else "Unused".

Definition reportStatus (st : Allocator) : list (Z * Z * string) :=
  map (fun b => (start_address b,
                 to_uint (start_address b + size b - 1),
                 label b))
      (memory_head st).

(** ** The invariants of the block list *)

(** Invariant 1: read from address [from], the blocks follow each other
    without gap or overlap and end at [upto]. *)
Fixpoint contiguous (from : Z) (l : list MemoryBlock) (upto : Z) : Prop :=
  match l with
  | [] => from = upto
  | b :: rest =>
      start_address b = from /\ contiguous (from + size b) rest upto
  end.

Definition partitions (l : list MemoryBlock) (total : Z) : Prop :=
  l <> [] /\ contiguous 0 l total.

(** Invariant 2: of two neighbours at least one is allocated. *)
Fixpoint no_adjacent_free (l : list MemoryBlock) : Prop :=
  match l with
  | a :: rest =>
      match rest with
      | b :: _ => is_allocated a || is_allocated b = true
      | [] => True
      end /\ no_adjacent_free rest
  | [] => True
  end.

(** Invariant 3. *)
Definition positive_sizes (l : list MemoryBlock) : Prop :=
  Forall (fun b => 0 < size b) l.

Definition invariants (st : Allocator) : Prop :=
  partitions (memory_head st) (total_memory_size st) /\
  no_adjacent_free (memory_head st) /\
  positive_sizes (memory_head st).

(** ** Commands *)

(** A command line as [executeCommand] has decoded it: the verb and
    its arguments, the size converted and the strategy reduced to its
    first character.  [X] ends the program and is not a command here. *)
Inductive Command : Type :=
| RQ (id : string) (sz : Z) (strategy : ascii)
| RL (id : string)
| C
| STAT.

(** The call that [executeCommand] makes for a command, on the state. *)
Definition executeCommand (c : Command) (st : Allocator) : Allocator :=
  match c with
  | RQ id sz strategy => fst (requestMemory id sz strategy st)
  | RL id => fst (releaseMemory id st)
  | C => compactMemory st
  | STAT => st
  end.

Definition run (cs : list Command) (st : Allocator) : Allocator :=
  fold_left (fun s c => executeCommand c s) cs st.

Definition known_strategy (strategy : ascii) : Prop :=
  strategy = "F"%char \/ strategy = "B"%char \/ strategy = "W"%char.

(** A command within the preconditions of the specification. *)
Definition valid_command (c : Command) : Prop :=
  match c with
  | RQ _ sz strategy => 0 < sz /\ known_strategy strategy
  | _ => True
  end.

(** ** What the searches are to return *)

(** The block at position [i] is free and large enough, no such block
    is smaller, and none of the same size stands before it. *)
Definition smallest_fit (sz : Z) (l : list MemoryBlock) (i : nat)
  (c : MemoryBlock) : Prop :=
  l !! i = Some c /\ fits sz c = true /\
  forall j d, l !! j = Some d -> fits sz d = true ->
    size c <= size d /\ (size d = size c -> (i <= j)%nat).

Definition largest_fit (sz : Z) (l : list MemoryBlock) (i : nat)
  (c : MemoryBlock) : Prop :=
  l !! i = Some c /\ fits sz c = true /\
  forall j d, l !! j = Some d -> fits sz d = true ->
    size d <= size c /\ (size d = size c -> (i <= j)%nat).

Definition none_fits (sz : Z) (l : list MemoryBlock) : Prop :=
  Forall (fun b => fits sz b = false) l.

(** The state of a best-fit scan that has gone through [done]. *)
Definition best_so_far (sz : Z) (done : list MemoryBlock)
  (best : option (nat * MemoryBlock)) : Prop :=
  match best with
  | None => none_fits sz done
  | Some (j, b) => smallest_fit sz done j b
  end.

Definition worst_so_far (sz : Z) (done : list MemoryBlock)
  (worst : option (nat * MemoryBlock)) : Prop :=
  match worst with
  | None => none_fits sz done
  | Some (j, b) => largest_fit sz done j b
  end.

(** ** What a release is to do *)

(** The freed block takes up the block before it when that one is free. *)
Definition merge_with_prev (pre : list MemoryBlock) (cur : MemoryBlock)
  : list MemoryBlock * MemoryBlock :=
  match last pre with
  | Some p =>
      if is_allocated p then (pre, cur) else (removelast pre, absorb p cur)
  | None => (pre, cur)
  end.

(** It takes up the block behind it when that one is free. *)
Definition merge_with_next (cur : MemoryBlock) (post : list MemoryBlock)
  : MemoryBlock * list MemoryBlock :=
  match post with
  | n :: rest => if is_allocated n then (cur, post) else (absorb cur n, rest)
  | [] => (cur, post)
  end.

(** The list [pre ++ b :: post] after the release of [b]. *)
Definition released (pre : list MemoryBlock) (b : MemoryBlock)
  (post : list MemoryBlock) : list MemoryBlock :=
  let '(front, cur) := merge_with_prev pre (mark_free b) in
  let '(cur', back) := merge_with_next cur post in
  front ++ cur' :: back.

Definition not_owned_by (id : string) (l : list MemoryBlock) : Prop :=
  Forall (fun b => owned_by id b = false) l.

(** The state between the two merges. *)
Record half_merged (front : list MemoryBlock) (cur : MemoryBlock)
  (post : list MemoryBlock) (total : Z) : Prop := {
  hm_free : is_allocated cur = false;
  hm_contiguous : contiguous 0 (front ++ cur :: post) total;
  hm_positive : positive_sizes (front ++ cur :: post);
  hm_front : no_adjacent_free (front ++ [cur]);
  hm_post : no_adjacent_free post
}.

(** ** What a compaction is to do *)

Definition owned_blocks (l : list MemoryBlock) : list MemoryBlock :=
  List.filter is_allocated l.

Fixpoint sum_sizes (l : list MemoryBlock) : Z :=
  match l with
  | [] => 0
  | b :: rest => size b + sum_sizes rest
  end.

(** The allocated nodes as the first loop leaves them, and the cursor
    it ends with; both in 32-bit arithmetic. *)
Fixpoint repack (cursor : Z) (owned : list MemoryBlock) : list MemoryBlock :=
  match owned with
  | [] => []
  | b :: rest =>
      set_start b cursor :: repack (to_uint (cursor + size b)) rest
  end.

Fixpoint cursor_after (cursor : Z) (owned : list MemoryBlock) : Z :=
  match owned with
  | [] => cursor
  | b :: rest => cursor_after (to_uint (cursor + size b)) rest
  end.

(** The free block that closes a compacted list, if any. *)
Definition trailing_free (cursor total : Z) : list MemoryBlock :=
  if cursor <? total
  then [free_block cursor (to_size_t (total - cursor))]
  else [].

(** ** Partition and labels *)

(** The owner of a block: a process, or nobody. *)
Definition owner (b : MemoryBlock) : option string :=
  if is_allocated b then Some (process_id b) else None.

(** The partition of the memory with its labels. *)
Definition layout (l : list MemoryBlock) : list (Z * Z * option string) :=
  map (fun b => (start_address b, size b, owner b)) l.

(** ** A session

    [initialize 100; RQ P1 30 F; RQ P2 20 B; RL P1]. *)
Definition session : list Command :=
  [RQ "P1" 30 "F"; RQ "P2" 20 "B"; RL "P1"].

Definition session_state : Allocator :=
  mkAllocator
    [mkMemoryBlock 0 30 false "FREE";
     mkMemoryBlock 30 20 true "P2";
     mkMemoryBlock 50 50 false "FREE"]
    100.

(** The state after [initialize 100; RQ P1 30 F]. *)
Definition first_request_state : Allocator :=
  mkAllocator
    [mkMemoryBlock 0 30 true "P1"; mkMemoryBlock 30 70 false "FREE"] 100.

(** ** The invariants, block by block

    Invariants 1 and 2 in the words of the specification: the first
    block starts at 0, each block ends where the next one starts, the
    last block ends at the total size; no two neighbours are both
    free. *)
Definition partition_as_stated (l : list MemoryBlock) (total : Z) : Prop :=
  (exists b, head l = Some b /\ start_address b = 0) /\
  (forall i b c, l !! i = Some b -> l !! S i = Some c ->
     start_address b + size b = start_address c) /\
  (exists b, last l = Some b /\ start_address b + size b = total).

Definition no_adjacent_free_as_stated (l : list MemoryBlock) : Prop :=
  forall i b c, l !! i = Some b -> l !! S i = Some c ->
    ~ (is_allocated b = false /\ is_allocated c = false).

(** ** Block lists with blocks of size zero

    [executeCommand] passes on whatever size it reads, zero included;
    the blocks then still tile the memory, with sizes that are merely
    not negative. *)
Definition nonnegative_sizes (l : list MemoryBlock) : Prop :=
  Forall (fun b => 0 <= size b) l.

Definition tiles (st : Allocator) : Prop :=
  partitions (memory_head st) (total_memory_size st) /\
  no_adjacent_free (memory_head st) /\
  nonnegative_sizes (memory_head st).

(** A size as a [size_t] argument carries it. *)
Definition size_t_value (sz : Z) : Prop := 0 <= sz < SIZE_MODULUS.

(** A command with the size of a request in the range of [size_t]. *)
Definition typed_command (c : Command) : Prop :=
  match c with
  | RQ _ sz _ => size_t_value sz
  | _ => True
  end.

(** The block at position [i] holds address [a]. *)
Definition holds_address (l : list MemoryBlock) (i : nat) (a : Z) : Prop :=
  exists b, l !! i = Some b /\
            start_address b <= a < start_address b + size b.

(** ** The lines of a report *)


(** ** Memory in use *)

Definition bytes_in_use (st : Allocator) : Z :=
  sum_sizes (owned_blocks (memory_head st)).

(** ** strtok

    The library function as [executeCommand] uses it.  [strtok delims s]
    searches [s], the command buffer on the first call and the saved
    position on the later ones: it passes over the characters that are
    in [delims]; if nothing is left there is no token (and the saved
    position is the end of the text); otherwise the token runs up to
    the next character of [delims] or to the end of the text, and the
    saved position is just behind that character. *)
Fixpoint is_delimiter (delims : string) (c : ascii) : bool :=
  match delims with
  | EmptyString => false
  | String d rest => Ascii.eqb c d || is_delimiter rest c
  end.

Fixpoint skip_delimiters (delims s : string) : string :=
  match s with
  | EmptyString => EmptyString
  | String c rest =>
      if is_delimiter delims c then skip_delimiters delims rest else s
  end.

Fixpoint scan_token (delims s : string) : string * string :=
  match s with
  | EmptyString => (EmptyString, EmptyString)
  | String c rest =>
      if is_delimiter delims c then (EmptyString, rest)
      else let '(token, saved) := scan_token delims rest in
           (String c token, saved)
  end.

Definition strtok (delims s : string) : option string * string :=
  match skip_delimiters delims s with
  | EmptyString => (None, EmptyString)
  | String c rest =>
      let '(token, saved) := scan_token delims (String c rest) in
      (Some token, saved)
  end.

(** The two delimiter sets of [executeCommand]: [" \n"] and [" "]. *)
Definition SPACE_NEWLINE : string := String " " (String "010" EmptyString).
Definition SPACE : string := String " " EmptyString.

(** ** executeCommand on the text of a line *)

(** What a line makes [executeCommand] do: one call into the allocator,
    one of its three complaints, or the end of the program. *)
Inductive Decoded : Type :=
| Call (c : Command)
| InvalidRQ
| InvalidRL
| InvalidCommand
| Exit.

(** [strategy_str[0]] of a token. *)
Definition first_char (s : string) : ascii :=
  match s with
  | String c _ => c
  | EmptyString => zero
  end.

(** The decoding of a line.  [atoi] is the conversion of the C library,
    whatever it returns for a text; its result is converted to
    [size_t]. *)
Definition decodeCommand (atoi : string -> Z) (command : string) : Decoded :=
  let '(token, p) := strtok SPACE_NEWLINE command in
  match token with
  | None => InvalidCommand
  | Some token =>
      if String.eqb token "RQ" then
        let '(process_id, p) := strtok SPACE p in
        let '(size_str, p) := strtok SPACE p in
        let '(strategy_str, _) := strtok SPACE_NEWLINE p in
        match process_id, size_str, strategy_str with
        | Some process_id, Some size_str, Some strategy_str =>
            Call (RQ process_id (to_size_t (atoi size_str))
                     (first_char strategy_str))
        | _, _, _ => InvalidRQ
        end
      else if String.eqb token "RL" then
        match strtok SPACE_NEWLINE p with
        | (Some process_id, _) => Call (RL process_id)
        | (None, _) => InvalidRL
        end
      else if String.eqb token "C" then Call C
      else if String.eqb token "STAT" then Call STAT
      else if String.eqb token "X" then Exit
      else InvalidCommand
  end.

(** The state after a line; nothing when the line ends the program. *)
Definition executeLine (atoi : string -> Z) (command : string)
  (st : Allocator) : option Allocator :=
  match decodeCommand atoi command with
  | Call c => Some (executeCommand c st)
  | Exit => None
  | _ => Some st
  end.

(** ** main *)

(** The loop of [main] over the lines that [fgets] delivers: the state
    when the program has ended or the lines are used up. *)
Fixpoint main_loop (atoi : string -> Z) (lines : list string)
  (st : Allocator) : Allocator :=
  match lines with
  | [] => st
  | command :: rest =>
      match executeLine atoi command st with
      | Some st' => main_loop atoi rest st'
      | None => st
      end
  end.


Fixpoint string_drop (n : nat) (s : string) : string :=
  match n, s with
  | S k, String _ rest => string_drop k rest
  | _, _ => s
  end.



(** ** Tokens *)

Fixpoint no_delimiter (delims s : string) : bool :=
  match s with
  | EmptyString => true
  | String c rest => negb (is_delimiter delims c) && no_delimiter delims rest
  end.

(** A text that [strtok] returns whole: not empty, no delimiter in it. *)
Definition is_token (delims s : string) : Prop :=
  s <> EmptyString /\ no_delimiter delims s = true.

(** What may follow the last token: nothing, or a delimiter and then
    anything. *)
Definition ends_token (delims tail : string) : Prop :=
  tail = EmptyString \/
  exists d rest, tail = String d rest /\ is_delimiter delims d = true.

(** The value of the decimal digits a text starts with; it stands for
    [atoi] and [strtoul] where a line is run as an example. *)
Fixpoint decimal_from (acc : Z) (s : string) : Z * nat :=
  match s with
  | String c rest =>
      let d := Z.of_nat (nat_of_ascii c) - 48 in
      if (0 <=? d) && (d <=? 9)
      then let '(v, n) := decimal_from (10 * acc + d) rest in (v, S n)
      else (acc, 0%nat)
  | EmptyString => (acc, 0%nat)
  end.

Definition decimal (s : string) : Z * nat := decimal_from 0 s.

(** A text of delimiters only, the empty text included. *)
Fixpoint all_delimiters (delims s : string) : bool :=
  match s with
  | EmptyString => true
  | String c rest => is_delimiter delims c && all_delimiters delims rest
  end.

(** The end of a line: nothing, or the newline that [fgets] keeps. *)
Definition end_of_line (eol : string) : Prop :=
  eol = EmptyString \/ eol = String "010" EmptyString.

(** The five verbs. *)
Definition is_verb (s : string) : Prop :=
  s = "RQ"%string \/ s = "RL"%string \/ s = "C"%string \/
  s = "STAT"%string \/ s = "X"%string.

(** An identifier of 100 characters, one more than a block's field
    holds with its terminator. *)
Definition long_id : string :=
  string_of_list_ascii (replicate 100 "a"%char).

(** * Lists addressed by position *)

Section Positions.
Context {A : Type}.
Implicit Types (l pre post : list A) (x y z : A).

Lemma lookup_at pre x post : (pre ++ x :: post) !! length pre = Some x.
Proof. induction pre; simpl; auto. Qed.

Lemma lookup_after pre x post :
  (pre ++ x :: post) !! S (length pre) = head post.
Proof. induction pre; simpl; auto. destruct post; auto. Qed.

Lemma alter_at (f : A -> A) pre x post :
  alter f (length pre) (pre ++ x :: post) = pre ++ f x :: post.
Proof. induction pre; simpl; f_equal; auto. Qed.

Lemma insert_at pre x y post :
  <[length pre := y]> (pre ++ x :: post) = pre ++ y :: post.
Proof. induction pre; simpl; f_equal; auto. Qed.

Lemma delete_after pre x y post :
  delete (S (length pre)) (pre ++ x :: y :: post) = pre ++ x :: post.
Proof. induction pre; simpl; f_equal; auto. Qed.

Lemma take_at pre x post : take (S (length pre)) (pre ++ x :: post) = pre ++ [x].
Proof. induction pre; simpl; f_equal; auto. Qed.

Lemma drop_at pre x post : drop (S (length pre)) (pre ++ x :: post) = post.
Proof. induction pre; simpl; auto. Qed.

Lemma alter_after (f : A -> A) pre x y post :
  alter f (S (length pre)) (pre ++ x :: y :: post) = pre ++ x :: f y :: post.
Proof. induction pre; simpl; f_equal; auto. Qed.

Lemma length_snoc pre x : length (pre ++ [x]) = S (length pre).
Proof. rewrite length_app. simpl. lia. Qed.

Lemma split_at l i x :
  l !! i = Some x -> l = take i l ++ x :: drop (S i) l /\ length (take i l) = i.
Proof.
  intros H. split.
  - symmetry. apply take_drop_middle, H.
  - apply length_take_le. apply lookup_lt_Some in H. lia.
Qed.
End Positions.

(** * The searches *)

Lemma firstFit_from_Some sz l : forall i k,
  firstFit_from i sz l = Some k ->
  exists pre c post,
    l = pre ++ c :: post /\ k = (i + length pre)%nat /\
    fits sz c = true /\ none_fits sz pre.
Proof.
  induction l as [|b l IH]; intros i k H; simpl in H; [discriminate|].
  destruct (fits sz b) eqn:Hb.
  - inversion H; subst. exists [], b, l. simpl.
    repeat split; auto. constructor.
  - destruct (IH _ _ H) as (pre & c & post & -> & -> & Hc & Hpre).
    exists (b :: pre), c, post. simpl.
    split; [reflexivity|]. split; [lia|]. split; [assumption|].
    constructor; assumption.
Qed.

Lemma firstFit_from_None sz l : forall i,
  none_fits sz l -> firstFit_from i sz l = None.
Proof.
  induction l as [|b l IH]; intros i H; simpl; auto.
  inversion H; subst. rewrite H2. auto.
Qed.

Lemma firstFit_from_fits sz l : forall i,
  ~ none_fits sz l -> exists k, firstFit_from i sz l = Some k.
Proof.
  induction l as [|b l IH]; intros i H; simpl.
  - destruct H. constructor.
  - destruct (fits sz b) eqn:Hb; eauto.
    apply IH. intros Hl. apply H. constructor; auto.
Qed.

Lemma none_fits_lookup sz l j d :
  none_fits sz l -> l !! j = Some d -> fits sz d = false.
Proof.
  intros H Hj. unfold none_fits in H. rewrite Forall_lookup in H. eauto.
Qed.

Lemma none_fits_snoc sz l c :
  none_fits sz l -> fits sz c = false -> none_fits sz (l ++ [c]).
Proof. intros. apply Forall_app. split; auto. Qed.

Lemma lookup_snoc_inv (l : list MemoryBlock) c j d :
  (l ++ [c]) !! j = Some d ->
  l !! j = Some d \/ (j = length l /\ d = c).
Proof.
  intros H. destruct (decide (j < length l)%nat) as [Hlt|Hge].
  - rewrite lookup_app_l in H by lia. auto.
  - rewrite lookup_app_r in H by lia.
    destruct (j - length l)%nat eqn:E; simpl in H; [|discriminate].
    inversion H. right. split; auto. lia.
Qed.

Lemma best_so_far_step sz done best c :
  best_so_far sz done best ->
  best_so_far sz (done ++ [c])
    (if fits sz c &&
        match best with
        | None => true
        | Some (_, b) => size c <? size b
        end
     then Some (length done, c) else best).
Proof.
  intros H. destruct (fits sz c) eqn:Hc; simpl.
  - destruct best as [[j b]|]; simpl in *.
    + destruct H as (Hj & Hb & Hmin).
      destruct (size c <? size b) eqn:Hlt.
      * apply Z.ltb_lt in Hlt. split; [apply lookup_at|]. split; auto.
        intros j' d Hj' Hd.
        apply lookup_snoc_inv in Hj' as [Hj'|[-> ->]]; [|lia].
        destruct (Hmin _ _ Hj' Hd). lia.
      * apply Z.ltb_ge in Hlt. split.
        { rewrite lookup_app_l; auto. eapply lookup_lt_Some; eauto. }
        split; auto. intros j' d Hj' Hd.
        apply lookup_snoc_inv in Hj' as [Hj'|[-> ->]]; [eauto|].
        split; auto. intros _. apply lookup_lt_Some in Hj. lia.
    + split; [apply lookup_at|]. split; auto.
      intros j' d Hj' Hd.
      apply lookup_snoc_inv in Hj' as [Hj'|[-> ->]]; [|lia].
      rewrite (none_fits_lookup _ _ _ _ H Hj') in Hd. discriminate.
  - destruct best as [[j b]|]; simpl in *.
    + destruct H as (Hj & Hb & Hmin). split.
      { rewrite lookup_app_l; auto. eapply lookup_lt_Some; eauto. }
      split; auto. intros j' d Hj' Hd.
      apply lookup_snoc_inv in Hj' as [Hj'|[-> ->]]; [eauto|congruence].
    + apply none_fits_snoc; auto.
Qed.

Lemma bestFit_from_spec sz l : forall done best,
  best_so_far sz done best ->
  best_so_far sz (done ++ l) (bestFit_from best (length done) sz l).
Proof.
  induction l as [|c l IH]; intros done best H; simpl.
  - rewrite app_nil_r. auto.
  - apply (best_so_far_step _ _ _ c) in H.
    apply IH in H. rewrite <- app_assoc, length_app in H. simpl in H.
    replace (length done + 1)%nat with (S (length done)) in H by lia.
    exact H.
Qed.

Lemma worst_so_far_step sz done worst c :
  worst_so_far sz done worst ->
  worst_so_far sz (done ++ [c])
    (if fits sz c &&
        match worst with
        | None => true
        | Some (_, w) => size w <? size c
        end
     then Some (length done, c) else worst).
Proof.
  intros H. destruct (fits sz c) eqn:Hc; simpl.
  - destruct worst as [[j b]|]; simpl in *.
    + destruct H as (Hj & Hb & Hmax).
      destruct (size b <? size c) eqn:Hlt.
      * apply Z.ltb_lt in Hlt. split; [apply lookup_at|]. split; auto.
        intros j' d Hj' Hd.
        apply lookup_snoc_inv in Hj' as [Hj'|[-> ->]]; [|lia].
        destruct (Hmax _ _ Hj' Hd). lia.
      * apply Z.ltb_ge in Hlt. split.
        { rewrite lookup_app_l; auto. eapply lookup_lt_Some; eauto. }
        split; auto. intros j' d Hj' Hd.
        apply lookup_snoc_inv in Hj' as [Hj'|[-> ->]]; [eauto|].
        split; auto. intros _. apply lookup_lt_Some in Hj. lia.
    + split; [apply lookup_at|]. split; auto.
      intros j' d Hj' Hd.
      apply lookup_snoc_inv in Hj' as [Hj'|[-> ->]]; [|lia].
      rewrite (none_fits_lookup _ _ _ _ H Hj') in Hd. discriminate.
  - destruct worst as [[j b]|]; simpl in *.
    + destruct H as (Hj & Hb & Hmax). split.
      { rewrite lookup_app_l; auto. eapply lookup_lt_Some; eauto. }
      split; auto. intros j' d Hj' Hd.
      apply lookup_snoc_inv in Hj' as [Hj'|[-> ->]]; [eauto|congruence].
    + apply none_fits_snoc; auto.
Qed.

Lemma worstFit_from_spec sz l : forall done worst,
  worst_so_far sz done worst ->
  worst_so_far sz (done ++ l) (worstFit_from worst (length done) sz l).
Proof.
  induction l as [|c l IH]; intros done worst H; simpl.
  - rewrite app_nil_r. auto.
  - apply (worst_so_far_step _ _ _ c) in H.
    apply IH in H. rewrite <- app_assoc, length_app in H. simpl in H.
    replace (length done + 1)%nat with (S (length done)) in H by lia.
    exact H.
Qed.

Lemma bestFit_result sz l :
  best_so_far sz l (bestFit_from None 0 sz l).
Proof. apply (bestFit_from_spec sz l [] None). constructor. Qed.

Lemma worstFit_result sz l :
  worst_so_far sz l (worstFit_from None 0 sz l).
Proof. apply (worstFit_from_spec sz l [] None). constructor. Qed.

Lemma select_block_fits strategy sz l i :
  select_block strategy sz l = Some i ->
  exists c, l !! i = Some c /\ fits sz c = true.
Proof.
  unfold select_block, firstFit, bestFit, worstFit.
  destruct (Ascii.eqb strategy "F"); [|destruct (Ascii.eqb strategy "B");
    [|destruct (Ascii.eqb strategy "W"); [|discriminate]]]; intros H.
  - apply firstFit_from_Some in H as (pre & c & post & -> & -> & Hc & _).
    exists c. split; auto. apply lookup_at.
  - pose proof (bestFit_result sz l) as R.
    destruct (bestFit_from None 0 sz l) as [[j b]|]; simpl in *; [|discriminate].
    inversion H; subst. destruct R as (? & ? & _). eauto.
  - pose proof (worstFit_result sz l) as R.
    destruct (worstFit_from None 0 sz l) as [[j b]|]; simpl in *; [|discriminate].
    inversion H; subst. destruct R as (? & ? & _). eauto.
Qed.

Lemma select_block_none_fits strategy sz l :
  none_fits sz l -> select_block strategy sz l = None.
Proof.
  intros Hn. unfold select_block.
  destruct (select_block strategy sz l) as [i|] eqn:E.
  - apply select_block_fits in E as (c & Hi & Hc).
    rewrite (none_fits_lookup _ _ _ _ Hn Hi) in Hc. discriminate.
  - exact E.
Qed.

Lemma select_block_unknown strategy sz l :
  ~ known_strategy strategy -> select_block strategy sz l = None.
Proof.
  intros H. unfold select_block.
  destruct (Ascii.eqb strategy "F") eqn:EF;
    [apply Ascii.eqb_eq in EF; destruct H; left; auto|].
  destruct (Ascii.eqb strategy "B") eqn:EB;
    [apply Ascii.eqb_eq in EB; destruct H; right; left; auto|].
  destruct (Ascii.eqb strategy "W") eqn:EW;
    [apply Ascii.eqb_eq in EW; destruct H; right; right; auto|].
  reflexivity.
Qed.

Lemma select_block_known strategy sz l :
  known_strategy strategy -> ~ none_fits sz l ->
  exists i, select_block strategy sz l = Some i.
Proof.
  intros Hk Hn. unfold select_block, firstFit, bestFit, worstFit.
  destruct Hk as [-> | [-> | ->]]; simpl.
  - apply firstFit_from_fits, Hn.
  - pose proof (bestFit_result sz l) as R.
    destruct (bestFit_from None 0 sz l) as [[j b]|]; simpl in *; eauto.
    contradiction.
  - pose proof (worstFit_result sz l) as R.
    destruct (worstFit_from None 0 sz l) as [[j b]|]; simpl in *; eauto.
    contradiction.
Qed.

(** * The effect of an allocation on the list *)

Lemma allocate_at_exact id sz pre c post :
  (sz <? size c) = false ->
  allocate_at id sz (length pre) c (pre ++ c :: post)
  = pre ++ mark_owned id c :: post.
Proof. intros H. unfold allocate_at. rewrite H. apply alter_at. Qed.

Lemma allocate_at_split id sz pre c post :
  (sz <? size c) = true ->
  allocate_at id sz (length pre) c (pre ++ c :: post)
  = pre ++ mark_owned id (set_size c sz)
        :: free_block (to_uint (start_address c + sz))
                      (to_size_t (size c - sz))
        :: post.
Proof.
  intros H. unfold allocate_at, insert_after. rewrite H.
  rewrite take_at, drop_at, <- app_assoc. simpl.
  rewrite !alter_at. reflexivity.
Qed.

(** * The invariants under concatenation *)

Lemma contiguous_app l1 : forall from l2 upto,
  contiguous from (l1 ++ l2) upto <->
  exists mid, contiguous from l1 mid /\ contiguous mid l2 upto.
Proof.
  induction l1 as [|b l1 IH]; intros from l2 upto; simpl.
  - split.
    + intros H. exists from. auto.
    + intros (mid & -> & H). exact H.
  - rewrite IH. split.
    + intros (Hb & mid & H1 & H2). exists mid. auto.
    + intros (mid & (Hb & H1) & H2). split; auto. exists mid. auto.
Qed.

Lemma contiguous_mono l : forall from upto,
  positive_sizes l -> contiguous from l upto -> from <= upto.
Proof.
  induction l as [|x l IH]; simpl; intros from upto Hp H.
  - lia.
  - inversion Hp; subst. destruct H as [_ H]. apply IH in H; auto. lia.
Qed.

Lemma no_adjacent_free_app l1 : forall x l2,
  no_adjacent_free (l1 ++ x :: l2) <->
  no_adjacent_free (l1 ++ [x]) /\ no_adjacent_free (x :: l2).
Proof.
  induction l1 as [|a l1 IH]; intros x l2.
  - simpl. tauto.
  - change ((a :: l1) ++ x :: l2) with (a :: (l1 ++ x :: l2)).
    change ((a :: l1) ++ [x]) with (a :: (l1 ++ [x])).
    cbn [no_adjacent_free]. rewrite IH.
    destruct l1; simpl; tauto.
Qed.

Lemma no_adjacent_free_cons_flag a b l :
  is_allocated a = is_allocated b ->
  no_adjacent_free (a :: l) -> no_adjacent_free (b :: l).
Proof. simpl. intros ->. auto. Qed.

Lemma no_adjacent_free_snoc_flag l : forall a b,
  is_allocated a = is_allocated b ->
  no_adjacent_free (l ++ [a]) -> no_adjacent_free (l ++ [b]).
Proof.
  induction l as [|x l IH]; intros a b E; simpl; auto.
  intros [H1 H2]. split; [|eauto].
  destruct l; simpl in *; congruence.
Qed.

Lemma no_adjacent_free_cons_owned a l :
  is_allocated a = true ->
  no_adjacent_free l -> no_adjacent_free (a :: l).
Proof. intros Ha H. simpl. rewrite Ha. split; auto. destruct l; auto. Qed.

Lemma no_adjacent_free_snoc_owned l : forall a,
  is_allocated a = true ->
  no_adjacent_free l -> no_adjacent_free (l ++ [a]).
Proof.
  induction l as [|x l IH]; intros a Ha; simpl; auto.
  intros [H1 H2]. split; [|eauto].
  destruct l; simpl in *; auto. rewrite Ha. apply orb_true_r.
Qed.

Lemma no_adjacent_free_tail a l :
  no_adjacent_free (a :: l) -> no_adjacent_free l.
Proof. simpl. tauto. Qed.

Lemma no_adjacent_free_init l : forall a,
  no_adjacent_free (l ++ [a]) -> no_adjacent_free l.
Proof.
  induction l as [|x l IH]; intros a; simpl; auto.
  intros [H1 H2]. split; [|eauto]. destruct l; simpl in *; auto.
Qed.

(** A free block has allocated neighbours. *)
Lemma no_adjacent_free_next a b l :
  is_allocated a = false -> no_adjacent_free (a :: b :: l) ->
  is_allocated b = true.
Proof. simpl. intros -> [H _]. exact H. Qed.

Lemma no_adjacent_free_prev l : forall p a,
  is_allocated a = false -> no_adjacent_free ((l ++ [p]) ++ [a]) ->
  is_allocated p = true.
Proof.
  induction l as [|x l IH]; intros p a Ha; simpl.
  - rewrite Ha, orb_false_r. tauto.
  - intros [_ H]. eauto.
Qed.

(** * The invariants can be checked *)

#[global] Instance contiguous_dec from l upto :
  Decision (contiguous from l upto).
Proof.
  revert from. induction l as [|b l IH]; intros from; simpl; apply _.
Defined.

#[global] Instance no_adjacent_free_dec l : Decision (no_adjacent_free l).
Proof.
  induction l as [|a l IH]; simpl; [apply _|]. destruct l; apply _.
Defined.

#[global] Instance invariants_dec st : Decision (invariants st).
Proof. unfold invariants, partitions, positive_sizes. apply _. Defined.

Example session_state_checked : bool_decide (invariants session_state) = true.
Proof. vm_compute. reflexivity. Qed.

Example size_zero_block_rejected :
  bool_decide
    (invariants
       (mkAllocator [mkMemoryBlock 0 0 true "P3";
                     mkMemoryBlock 0 100 false "FREE"] 100)) = false.
Proof. vm_compute. reflexivity. Qed.

(** * The invariants, block by block *)

Lemma contiguous_as_stated l : forall from upto,
  l <> [] /\ contiguous from l upto <->
  (exists b, head l = Some b /\ start_address b = from) /\
  (forall i b c, l !! i = Some b -> l !! S i = Some c ->
     start_address b + size b = start_address c) /\
  (exists b, last l = Some b /\ start_address b + size b = upto).
Proof.
  induction l as [|x l IH]; intros from upto.
  - split.
    + intros [H _]. contradiction.
    + intros ((b & H & _) & _). discriminate.
  - destruct l as [|y l].
    + simpl. split.
      * intros (_ & Hx & Hend). split; [eauto|]. split.
        { intros i b c _ Hc. destruct i; discriminate. }
        exists x. split; [reflexivity|lia].
      * intros ((b & Hb & Hs) & _ & (c & Hc & He)).
        inversion Hb; inversion Hc; subst.
        split; [discriminate|]. split; [reflexivity|lia].
    + specialize (IH (from + size x) upto).
      change (contiguous from (x :: y :: l) upto)
        with (start_address x = from /\
              contiguous (from + size x) (y :: l) upto).
      rewrite last_cons_cons. split.
      * intros (_ & Hx & Hrest).
        assert (Hne : y :: l <> []) by discriminate.
        destruct IH as [IH _].
        destruct (IH (conj Hne Hrest)) as ((b & Hb & Hs) & Hmid & Hlast).
        inversion Hb; subst b. split; [eauto|]. split; [|exact Hlast].
        intros i b c Hi Hsi. destruct i as [|i].
        { inversion Hi; inversion Hsi; subst. lia. }
        { exact (Hmid i b c Hi Hsi). }
      * intros ((b & Hb & Hs) & Hmid & Hlast). inversion Hb; subst b.
        split; [discriminate|]. split; [exact Hs|].
        destruct IH as [_ IH]. apply IH. split; [|split; [|exact Hlast]].
        { exists y. split; [reflexivity|].
          rewrite <- Hs. symmetry. apply (Hmid 0%nat x y); reflexivity. }
        { intros i b c Hi Hsi. exact (Hmid (S i) b c Hi Hsi). }
Qed.

Lemma partitions_as_stated l total :
  partitions l total <-> partition_as_stated l total.
Proof. apply contiguous_as_stated. Qed.

Lemma no_adjacent_free_stated l :
  no_adjacent_free l <-> no_adjacent_free_as_stated l.
Proof.
  unfold no_adjacent_free_as_stated. induction l as [|x l IH].
  - simpl. split; auto. intros _ i b c H. discriminate.
  - cbn [no_adjacent_free]. rewrite IH. split.
    + intros [Hx Hrest] i b c Hi Hsi [Hb Hc]. destruct i as [|i].
      * inversion Hi; subst b. destruct l as [|y l]; [discriminate|].
        inversion Hsi; subst c. rewrite Hb, Hc in Hx. discriminate.
      * exact (Hrest i b c Hi Hsi (conj Hb Hc)).
    + intros H. split.
      * destruct l as [|y l]; [exact I|].
        destruct (is_allocated x) eqn:Ex; [reflexivity|].
        destruct (is_allocated y) eqn:Ey; [reflexivity|].
        destruct (H 0%nat x y eq_refl eq_refl (conj Ex Ey)).
      * intros i b c Hi Hsi. exact (H (S i) b c Hi Hsi).
Qed.

(** * Machine arithmetic without wrap-around *)

Lemma to_uint_small z : 0 <= z < UINT_MODULUS -> to_uint z = z.
Proof. intros H. unfold to_uint. apply Z.mod_small. exact H. Qed.

Lemma to_size_t_small z : 0 <= z < SIZE_MODULUS -> to_size_t z = z.
Proof. intros H. unfold to_size_t. apply Z.mod_small. exact H. Qed.

Lemma UINT_below_SIZE : UINT_MODULUS < SIZE_MODULUS.
Proof. reflexivity. Qed.

Lemma MAX_MEMORY_below_UINT : MAX_MEMORY < UINT_MODULUS.
Proof. reflexivity. Qed.

(** * The effect of a release on the list *)

Lemma find_owned_Some id l : forall i k,
  find_owned id i l = Some k ->
  exists pre b post,
    l = pre ++ b :: post /\ k = (i + length pre)%nat /\
    owned_by id b = true /\ not_owned_by id pre.
Proof.
  induction l as [|x l IH]; intros i k H; simpl in H; [discriminate|].
  destruct (owned_by id x) eqn:Hx.
  - inversion H; subst. exists [], x, l. simpl.
    split; [reflexivity|]. split; [lia|]. split; [assumption|]. constructor.
  - destruct (IH _ _ H) as (pre & b & post & -> & -> & Hb & Hpre).
    exists (x :: pre), b, post. simpl.
    split; [reflexivity|]. split; [lia|]. split; [assumption|].
    constructor; assumption.
Qed.

Lemma find_owned_first id pre b post : forall i,
  not_owned_by id pre -> owned_by id b = true ->
  find_owned id i (pre ++ b :: post) = Some (i + length pre)%nat.
Proof.
  induction pre as [|x pre IH]; intros i Hpre Hb; simpl.
  - rewrite Hb. f_equal. lia.
  - inversion Hpre; subst. rewrite H1, IH by assumption. f_equal. lia.
Qed.

Lemma find_owned_None id l : forall i,
  find_owned id i l = None <-> not_owned_by id l.
Proof.
  induction l as [|x l IH]; intros i; simpl.
  - split; auto. constructor.
  - destruct (owned_by id x) eqn:Hx.
    + split; [discriminate|]. intros H. inversion H; congruence.
    + rewrite IH. split; intros H; [constructor; auto|inversion H; auto].
Qed.

Lemma release_at_head b post :
  release_at 0 (b :: post) = released [] b post.
Proof.
  unfold release_at, released, merge_with_prev, merge_with_next. simpl.
  destruct post as [|n rest]; simpl; [reflexivity|].
  destruct (is_allocated n); reflexivity.
Qed.

Lemma release_at_inner pre p b post :
  release_at (S (length pre)) (pre ++ p :: b :: post)
  = released (pre ++ [p]) b post.
Proof.
  unfold release_at, released, merge_with_prev.
  rewrite last_snoc, removelast_last, alter_after, lookup_at, lookup_after.
  change (head (mark_free b :: post)) with (Some (mark_free b)).
  cbv iota beta.
  destruct (is_allocated p) eqn:Hp; simpl negb; cbv iota beta.
  - replace (pre ++ p :: mark_free b :: post)
      with ((pre ++ [p]) ++ mark_free b :: post)
      by (rewrite <- app_assoc; reflexivity).
    rewrite <- (length_snoc pre p).
    rewrite lookup_at, lookup_after.
    unfold merge_with_next.
    destruct post as [|n rest]; [reflexivity|].
    change (head (n :: rest)) with (Some n). cbv iota beta.
    destruct (is_allocated n); simpl negb; cbv iota; [reflexivity|].
    rewrite insert_at, delete_after. reflexivity.
  - rewrite insert_at, delete_after.
    rewrite lookup_at, lookup_after.
    unfold merge_with_next.
    destruct post as [|n rest]; [reflexivity|].
    change (head (n :: rest)) with (Some n). cbv iota beta.
    destruct (is_allocated n); simpl negb; cbv iota; [reflexivity|].
    rewrite insert_at, delete_after. reflexivity.
Qed.

Lemma release_at_spec pre b post :
  release_at (length pre) (pre ++ b :: post) = released pre b post.
Proof.
  destruct pre as [|p pre _] using rev_ind.
  - apply release_at_head.
  - rewrite length_snoc, <- app_assoc. apply release_at_inner.
Qed.

Lemma releaseMemory_found id pre b post total :
  not_owned_by id pre -> owned_by id b = true ->
  releaseMemory id (mkAllocator (pre ++ b :: post) total)
  = (mkAllocator (released pre b post) total, Released).
Proof.
  intros Hpre Hb. unfold releaseMemory. simpl.
  rewrite (find_owned_first id pre b post 0 Hpre Hb). simpl.
  rewrite release_at_spec. reflexivity.
Qed.

Lemma releaseMemory_not_found id st :
  not_owned_by id (memory_head st) ->
  releaseMemory id st = (st, NoSuchProcess).
Proof.
  intros H. unfold releaseMemory.
  apply (find_owned_None id _ 0%nat) in H. rewrite H. reflexivity.
Qed.

(** * Release keeps the invariants *)

Lemma contiguous_bounds front x back total :
  positive_sizes (front ++ x :: back) ->
  contiguous 0 (front ++ x :: back) total ->
  0 <= start_address x /\ start_address x + size x <= total.
Proof.
  intros Hp Hc. unfold positive_sizes in Hp.
  rewrite Forall_app, Forall_cons in Hp. destruct Hp as (Hf & Hx & Hb).
  apply contiguous_app in Hc as (mid & H1 & H2). simpl in H2.
  destruct H2 as [-> H2].
  apply contiguous_mono in H1; auto. apply contiguous_mono in H2; auto.
Qed.

Lemma absorb_exact front a b back total :
  total < SIZE_MODULUS ->
  positive_sizes (front ++ a :: b :: back) ->
  contiguous 0 (front ++ a :: b :: back) total ->
  absorb a b = set_size a (size a + size b).
Proof.
  intros Ht Hp Hc. unfold absorb. f_equal. apply to_size_t_small.
  pose proof (contiguous_bounds front a (b :: back) total Hp Hc) as [Ha _].
  replace (front ++ a :: b :: back) with ((front ++ [a]) ++ b :: back) in *
    by (rewrite <- app_assoc; reflexivity).
  pose proof (contiguous_bounds _ b back total Hp Hc) as [_ Hb].
  apply contiguous_app in Hc as (mid & H1 & H2).
  apply contiguous_app in H1 as (m0 & H0 & H1). simpl in H1, H2.
  unfold positive_sizes in Hp.
  rewrite !Forall_app, !Forall_cons in Hp.
  destruct Hp as ((_ & Ha' & _) & Hb' & _).
  lia.
Qed.

Lemma contiguous_merge front a b back : forall from upto,
  contiguous from (front ++ a :: b :: back) upto ->
  contiguous from (front ++ set_size a (size a + size b) :: back) upto.
Proof.
  intros from upto H.
  apply contiguous_app in H as (mid & H1 & H2).
  apply contiguous_app. exists mid. split; auto.
  simpl in *. destruct H2 as (Ha & Hb & H2). split; auto.
  replace (mid + (size a + size b)) with (mid + size a + size b) by lia.
  exact H2.
Qed.

Lemma positive_sizes_merge front a b back :
  positive_sizes (front ++ a :: b :: back) ->
  positive_sizes (front ++ set_size a (size a + size b) :: back).
Proof.
  unfold positive_sizes. rewrite !Forall_app, !Forall_cons. simpl.
  intros (Hf & Ha & Hb & Hback). repeat split; auto. lia.
Qed.

Lemma contiguous_mark_free front b back : forall from upto,
  contiguous from (front ++ b :: back) upto ->
  contiguous from (front ++ mark_free b :: back) upto.
Proof.
  intros from upto H. apply contiguous_app in H as (mid & H1 & H2).
  apply contiguous_app. exists mid. split; auto.
Qed.

Lemma positive_sizes_mark_free front b back :
  positive_sizes (front ++ b :: back) ->
  positive_sizes (front ++ mark_free b :: back).
Proof.
  unfold positive_sizes. rewrite !Forall_app, !Forall_cons. simpl. tauto.
Qed.

Lemma merge_with_prev_ok pre cur post total :
  total < SIZE_MODULUS ->
  is_allocated cur = false ->
  contiguous 0 (pre ++ cur :: post) total ->
  positive_sizes (pre ++ cur :: post) ->
  no_adjacent_free pre -> no_adjacent_free post ->
  half_merged (fst (merge_with_prev pre cur)) (snd (merge_with_prev pre cur))
              post total.
Proof.
  intros Ht Hfree Hc Hp Hpre Hpost. unfold merge_with_prev.
  destruct pre as [|p pre _] using rev_ind; simpl.
  - split; auto. simpl. auto.
  - rewrite last_snoc. destruct (is_allocated p) eqn:Ep; simpl.
    + split; auto.
      rewrite <- app_assoc. simpl.
      apply no_adjacent_free_app. split; auto.
      simpl. rewrite Ep. auto.
    + rewrite removelast_last. rewrite <- app_assoc in Hc, Hp. simpl in Hc, Hp.
      rewrite (absorb_exact pre p cur post total Ht Hp Hc).
      split.
      * exact Ep.
      * apply contiguous_merge, Hc.
      * apply positive_sizes_merge, Hp.
      * eapply no_adjacent_free_snoc_flag; [|exact Hpre]. reflexivity.
      * exact Hpost.
Qed.

Lemma merge_with_next_ok front cur post total :
  total < SIZE_MODULUS ->
  half_merged front cur post total ->
  let '(cur', back) := merge_with_next cur post in
  contiguous 0 (front ++ cur' :: back) total /\
  positive_sizes (front ++ cur' :: back) /\
  no_adjacent_free (front ++ cur' :: back).
Proof.
  intros Ht [Hfree Hc Hp Hfront Hpost]. unfold merge_with_next.
  destruct post as [|n rest].
  - repeat split; auto.
  - destruct (is_allocated n) eqn:En.
    + repeat split; auto.
      apply no_adjacent_free_app. split; auto.
      split; [|exact Hpost]. rewrite En. apply orb_true_r.
    + rewrite (absorb_exact front cur n rest total Ht Hp Hc).
      split; [apply contiguous_merge, Hc|].
      split; [apply positive_sizes_merge, Hp|].
      apply no_adjacent_free_app. split.
      * eapply no_adjacent_free_snoc_flag; [|exact Hfront]. reflexivity.
      * eapply no_adjacent_free_cons_flag; [|exact Hpost].
        simpl. congruence.
Qed.

Lemma released_invariants pre b post total :
  total < SIZE_MODULUS ->
  invariants (mkAllocator (pre ++ b :: post) total) ->
  invariants (mkAllocator (released pre b post) total).
Proof.
  intros Ht ((_ & Hc) & Hn & Hp). simpl in *.
  apply no_adjacent_free_app in Hn as [Hn1 Hn2].
  apply no_adjacent_free_init in Hn1. apply no_adjacent_free_tail in Hn2.
  pose proof (merge_with_prev_ok pre (mark_free b) post total Ht eq_refl
    (contiguous_mark_free _ _ _ _ _ Hc) (positive_sizes_mark_free _ _ _ Hp)
    Hn1 Hn2) as Hhalf.
  unfold released.
  destruct (merge_with_prev pre (mark_free b)) as [front cur]. simpl in Hhalf.
  pose proof (merge_with_next_ok front cur post total Ht Hhalf) as Hfull.
  destruct (merge_with_next cur post) as [cur' back].
  destruct Hfull as (H1 & H2 & H3).
  split; [split|split]; simpl; auto.
  destruct front; discriminate.
Qed.

Lemma releaseMemory_invariants id st :
  total_memory_size st < SIZE_MODULUS ->
  invariants st -> invariants (fst (releaseMemory id st)).
Proof.
  intros Ht Hinv. destruct st as [l total]. unfold releaseMemory. simpl.
  destruct (find_owned id 0 l) as [i|] eqn:E; simpl; auto.
  apply find_owned_Some in E as (pre & b & post & -> & -> & Hb & Hpre).
  simpl. rewrite release_at_spec. apply released_invariants; auto.
Qed.

(** * Requests keep the invariants *)

Lemma requestMemory_effect id sz strategy st i :
  select_block strategy sz (memory_head st) = Some i ->
  exists pre c post,
    memory_head st = pre ++ c :: post /\ length pre = i /\
    fits sz c = true /\
    requestMemory id sz strategy st
    = (mkAllocator (allocate_at id sz (length pre) c (pre ++ c :: post))
                   (total_memory_size st),
       Allocated sz id (start_address c)).
Proof.
  intros E. destruct (select_block_fits _ _ _ _ E) as (c & Hi & Hc).
  destruct (split_at _ _ _ Hi) as [Hl Hlen].
  exists (take i (memory_head st)), c, (drop (S i) (memory_head st)).
  split; [exact Hl|]. split; [exact Hlen|]. split; [exact Hc|].
  unfold requestMemory. rewrite E, Hi, Hlen, <- Hl. reflexivity.
Qed.

Lemma fits_inv sz c :
  fits sz c = true -> is_allocated c = false /\ sz <= size c.
Proof.
  unfold fits. rewrite andb_true_iff, negb_true_iff, Z.leb_le. tauto.
Qed.

Lemma allocate_at_invariants id sz pre c post total :
  0 < sz -> total < UINT_MODULUS -> fits sz c = true ->
  invariants (mkAllocator (pre ++ c :: post) total) ->
  invariants
    (mkAllocator (allocate_at id sz (length pre) c (pre ++ c :: post)) total).
Proof.
  intros Hsz Ht Hfit ((_ & Hc) & Hn & Hp). simpl in *.
  apply fits_inv in Hfit as [Hfree Hle].
  pose proof (contiguous_bounds _ _ _ _ Hp Hc) as [Hlo Hhi].
  pose proof UINT_below_SIZE as HU.
  apply no_adjacent_free_app in Hn as [Hn1 Hn2].
  destruct (sz <? size c) eqn:Hlt.
  - apply Z.ltb_lt in Hlt.
    rewrite allocate_at_split by (apply Z.ltb_lt; exact Hlt).
    rewrite to_uint_small, to_size_t_small by lia.
    split; [split|split]; simpl.
    + destruct pre; discriminate.
    + apply contiguous_app in Hc as (mid & H1 & H2).
      apply contiguous_app. exists mid. split; auto.
      simpl in *. destruct H2 as [Hs H2].
      split; auto. split; [lia|].
      replace (mid + sz + (size c - sz)) with (mid + size c) by lia.
      exact H2.
    + apply no_adjacent_free_app. split.
      * apply no_adjacent_free_snoc_owned; [reflexivity|].
        eapply no_adjacent_free_init; eauto.
      * apply no_adjacent_free_cons_owned; [reflexivity|].
        eapply no_adjacent_free_cons_flag; [|exact Hn2].
        simpl. exact Hfree.
    + unfold positive_sizes in *.
      rewrite !Forall_app, !Forall_cons in *. simpl.
      destruct Hp as (? & ? & ?). repeat split; auto; lia.
  - rewrite allocate_at_exact by exact Hlt.
    split; [split|split]; simpl.
    + destruct pre; discriminate.
    + apply contiguous_app in Hc as (mid & H1 & H2).
      apply contiguous_app. exists mid. split; auto.
    + apply no_adjacent_free_app. split.
      * apply no_adjacent_free_snoc_owned; [reflexivity|].
        eapply no_adjacent_free_init; eauto.
      * apply no_adjacent_free_cons_owned; [reflexivity|].
        eapply no_adjacent_free_tail; eauto.
    + unfold positive_sizes in *.
      rewrite !Forall_app, !Forall_cons in *. simpl. tauto.
Qed.

Lemma requestMemory_invariants id sz strategy st :
  0 < sz -> total_memory_size st < UINT_MODULUS ->
  invariants st -> invariants (fst (requestMemory id sz strategy st)).
Proof.
  intros Hsz Ht Hinv.
  destruct (select_block strategy sz (memory_head st)) as [i|] eqn:E.
  - destruct (requestMemory_effect id _ _ _ _ E)
      as (pre & c & post & Hl & _ & Hfit & ->).
    simpl. destruct st as [l total]. simpl in *. subst l.
    apply allocate_at_invariants; auto.
  - unfold requestMemory. rewrite E. exact Hinv.
Qed.

(** * The effect of a compaction on the list *)

Lemma slide_spec l : forall i n last moved n' last',
  slide i n last l = (moved, n', last') ->
  remove_free moved = repack n (owned_blocks l) /\
  n' = cursor_after n (owned_blocks l) /\
  (last' = None <-> last = None /\ owned_blocks l = []).
Proof.
  induction l as [|b l IH]; intros i n last moved n' last' H; simpl in H.
  - inversion H; subst. simpl. tauto.
  - unfold owned_blocks. simpl. destruct (is_allocated b) eqn:Hb.
    + destruct (slide (S i) (to_uint (n + size b)) (Some i) l)
        as [[rest' m] last''] eqn:E.
      inversion H; subst. apply IH in E as (E1 & E2 & E3).
      simpl. rewrite Hb. simpl. rewrite E1.
      split; [reflexivity|]. split; [exact E2|].
      split; [|intros [_ ?]; discriminate].
      intros ->. destruct E3 as [E3 _].
      destruct (E3 eq_refl) as [? _]. discriminate.
    + destruct (slide (S i) n last l) as [[rest' m] last''] eqn:E.
      inversion H; subst. apply IH in E as (E1 & E2 & E3).
      simpl. rewrite Hb. simpl. auto.
Qed.

(** The node that [last_allocated_block] points to after the first loop
    is the last node that the second loop leaves in the list. *)
Lemma slide_last_allocated l : forall i n last0 moved n' last',
  slide i n last0 l = (moved, n', last') ->
  match last' with
  | Some k =>
      (last0 = Some k /\ remove_free moved = []) \/
      (exists b, (i <= k)%nat /\ moved !! (k - i)%nat = Some b /\
                 last (remove_free moved) = Some b)
  | None => last0 = None /\ remove_free moved = []
  end.
Proof.
  induction l as [|x l IH]; intros i n last0 moved n' last' H; simpl in H.
  - inversion H; subst. destruct last'; simpl; auto.
  - destruct (is_allocated x) eqn:Hx.
    + destruct (slide (S i) (to_uint (n + size x)) (Some i) l)
        as [[rest' m] last''] eqn:E.
      inversion H; subst. apply IH in E. simpl. rewrite Hx. simpl.
      destruct last' as [k|]; [|destruct E; discriminate].
      right. destruct E as [[Ek Er] | (b & Hik & Hb & Hl)].
      * inversion Ek; subst k. rewrite Er, Nat.sub_diag.
        exists (set_start x n). auto.
      * exists b. split; [lia|]. split.
        { replace (k - i)%nat with (S (k - S i)) by lia. exact Hb. }
        { destruct (remove_free rest'); [discriminate|exact Hl]. }
    + destruct (slide (S i) n last0 l) as [[rest' m] last''] eqn:E.
      inversion H; subst. apply IH in E. simpl. rewrite Hx. simpl.
      destruct last' as [k|]; [|exact E].
      destruct E as [E | (b & Hik & Hb & Hl)]; [left; exact E|].
      right. exists b. split; [lia|]. split; [|exact Hl].
      replace (k - i)%nat with (S (k - S i)) by lia. exact Hb.
Qed.

Lemma compactMemory_unfold st :
  compactMemory st
  = mkAllocator
      (repack 0 (owned_blocks (memory_head st))
       ++ trailing_free (cursor_after 0 (owned_blocks (memory_head st)))
                        (total_memory_size st))
      (total_memory_size st).
Proof.
  unfold compactMemory, trailing_free.
  destruct (slide 0 0 None (memory_head st)) as [[moved n] last] eqn:E.
  apply slide_spec in E as (E1 & -> & E3). rewrite E1.
  destruct (_ <? _); [|rewrite app_nil_r; reflexivity].
  destruct last as [k|]; [reflexivity|].
  destruct E3 as [E3 _]. destruct (E3 eq_refl) as [_ ->]. reflexivity.
Qed.

Lemma owned_blocks_app l1 l2 :
  owned_blocks (l1 ++ l2) = owned_blocks l1 ++ owned_blocks l2.
Proof. unfold owned_blocks. apply List.filter_app. Qed.

Lemma owned_blocks_repack l : forall n,
  Forall (fun b => is_allocated b = true) l ->
  owned_blocks (repack n l) = repack n l.
Proof.
  induction l as [|b l IH]; intros n H; simpl; auto.
  inversion H; subst. unfold owned_blocks in *. simpl.
  rewrite H2. f_equal. apply IH. auto.
Qed.

Lemma owned_blocks_allocated l :
  Forall (fun b => is_allocated b = true) (owned_blocks l).
Proof.
  unfold owned_blocks. apply Forall_forall. intros b Hb.
  apply list_elem_of_In, List.filter_In in Hb. tauto.
Qed.

Lemma owned_blocks_trailing_free n total :
  owned_blocks (trailing_free n total) = [].
Proof. unfold trailing_free. destruct (_ <? _); reflexivity. Qed.

Lemma repack_repack l : forall n, repack n (repack n l) = repack n l.
Proof. induction l as [|b l IH]; intros n; simpl; f_equal; auto. Qed.

Lemma cursor_after_repack l : forall n m,
  cursor_after n (repack m l) = cursor_after n l.
Proof. induction l as [|b l IH]; intros n m; simpl; auto. Qed.

Lemma compactMemory_twice st :
  compactMemory (compactMemory st) = compactMemory st.
Proof.
  rewrite (compactMemory_unfold (compactMemory st)).
  rewrite (compactMemory_unfold st). simpl.
  rewrite owned_blocks_app, owned_blocks_trailing_free, app_nil_r.
  rewrite owned_blocks_repack by apply owned_blocks_allocated.
  rewrite repack_repack, cursor_after_repack. reflexivity.
Qed.

(** * Compaction without wrap-around *)

Lemma sum_sizes_nonneg l : positive_sizes l -> 0 <= sum_sizes l.
Proof.
  induction 1 as [|b l Hb _ IH]; simpl; lia.
Qed.

Lemma sum_sizes_contiguous l : forall from upto,
  contiguous from l upto -> sum_sizes l = upto - from.
Proof.
  induction l as [|b l IH]; simpl; intros from upto H.
  - lia.
  - destruct H as [_ H]. apply IH in H. lia.
Qed.

Lemma positive_sizes_owned l :
  positive_sizes l -> positive_sizes (owned_blocks l).
Proof.
  unfold positive_sizes, owned_blocks. rewrite !Forall_forall.
  intros H b Hb. apply H.
  apply list_elem_of_In. apply list_elem_of_In, List.filter_In in Hb. tauto.
Qed.

Lemma sum_sizes_owned l :
  positive_sizes l -> sum_sizes (owned_blocks l) <= sum_sizes l.
Proof.
  induction 1 as [|b l Hb _ IH]; simpl; [lia|].
  unfold owned_blocks in *. simpl. destruct (is_allocated b); simpl; lia.
Qed.

Lemma repack_lookup l : forall n k b,
  positive_sizes l -> 0 <= n -> n + sum_sizes l < UINT_MODULUS ->
  l !! k = Some b ->
  repack n l !! k = Some (set_start b (n + sum_sizes (take k l))).
Proof.
  induction l as [|x l IH]; intros n k b Hp Hn Hs Hk; [discriminate|].
  inversion Hp; subst. simpl in Hs.
  pose proof (sum_sizes_nonneg l H2).
  destruct k as [|k]; simpl in *.
  - inversion Hk; subst. f_equal. f_equal. lia.
  - rewrite to_uint_small by lia.
    rewrite (IH (n + size x) k b H2 ltac:(lia) ltac:(lia) Hk).
    f_equal. f_equal. lia.
Qed.

Lemma cursor_after_sum l : forall n,
  positive_sizes l -> 0 <= n -> n + sum_sizes l < UINT_MODULUS ->
  cursor_after n l = n + sum_sizes l.
Proof.
  induction l as [|x l IH]; intros n Hp Hn Hs; simpl in *; [lia|].
  inversion Hp; subst.
  pose proof (sum_sizes_nonneg l H2).
  rewrite to_uint_small by lia. rewrite IH by (auto; lia). lia.
Qed.

Lemma contiguous_repack l : forall n,
  positive_sizes l -> 0 <= n -> n + sum_sizes l < UINT_MODULUS ->
  contiguous n (repack n l) (n + sum_sizes l).
Proof.
  induction l as [|x l IH]; intros n Hp Hn Hs; simpl in *; [lia|].
  inversion Hp; subst.
  pose proof (sum_sizes_nonneg l H2).
  split; [reflexivity|].
  rewrite to_uint_small by lia.
  replace (n + (size x + sum_sizes l)) with (n + size x + sum_sizes l) by lia.
  apply IH; auto; lia.
Qed.

Lemma length_repack l : forall n, length (repack n l) = length l.
Proof. induction l as [|x l IH]; intros n; simpl; auto. Qed.

Lemma positive_sizes_repack l : forall n,
  positive_sizes l -> positive_sizes (repack n l).
Proof.
  induction l as [|x l IH]; intros n Hp; simpl; [constructor|].
  inversion Hp; subst. constructor; [exact H1|]. apply IH, H2.
Qed.

Lemma allocated_repack l : forall n,
  Forall (fun b => is_allocated b = true) l ->
  Forall (fun b => is_allocated b = true) (repack n l).
Proof.
  induction l as [|x l IH]; intros n Hp; simpl; [constructor|].
  inversion Hp; subst. constructor; [exact H1|]. apply IH, H2.
Qed.

Lemma no_adjacent_free_allocated l :
  Forall (fun b => is_allocated b = true) l ->
  forall t, (length t <= 1)%nat -> no_adjacent_free (l ++ t).
Proof.
  induction 1 as [|b l Hb _ IH]; intros t Ht.
  - destruct t as [|x [|y t]]; simpl in *; auto. lia.
  - simpl. rewrite Hb. split; [|apply IH, Ht].
    destruct (l ++ t); auto.
Qed.

(** What the invariants give for a compaction. *)
Lemma used_bounds st :
  invariants st ->
  let used := sum_sizes (owned_blocks (memory_head st)) in
  0 <= used <= total_memory_size st /\ 0 < total_memory_size st.
Proof.
  intros ((Hne & Hc) & _ & Hp). simpl.
  pose proof (sum_sizes_contiguous _ _ _ Hc) as Hsum.
  pose proof (sum_sizes_owned _ Hp).
  pose proof (sum_sizes_nonneg _ (positive_sizes_owned _ Hp)).
  split; [lia|].
  destruct (memory_head st) as [|b l]; [contradiction|].
  inversion Hp; subst. simpl in Hsum.
  pose proof (sum_sizes_nonneg l H4). lia.
Qed.

Lemma trailing_free_exact used total :
  0 <= used <= total -> total < SIZE_MODULUS ->
  trailing_free used total
  = if used =? total then [] else [free_block used (total - used)].
Proof.
  intros Hu Ht. unfold trailing_free.
  destruct (used <? total) eqn:E1; destruct (used =? total) eqn:E2;
    try reflexivity.
  - apply Z.ltb_lt in E1. apply Z.eqb_eq in E2. lia.
  - rewrite to_size_t_small; [reflexivity|].
    apply Z.ltb_lt in E1. lia.
  - apply Z.ltb_ge in E1. apply Z.eqb_neq in E2. lia.
Qed.

Lemma compactMemory_exact st :
  invariants st -> total_memory_size st < UINT_MODULUS ->
  let owned := owned_blocks (memory_head st) in
  let used := sum_sizes owned in
  compactMemory st
  = mkAllocator
      (repack 0 owned
       ++ (if used =? total_memory_size st then []
           else [free_block used (total_memory_size st - used)]))
      (total_memory_size st).
Proof.
  intros Hinv Ht. simpl.
  pose proof (used_bounds st Hinv) as [Hu Hpos]. simpl in Hu.
  pose proof UINT_below_SIZE.
  destruct Hinv as (_ & _ & Hp).
  rewrite compactMemory_unfold.
  rewrite cursor_after_sum by (auto using positive_sizes_owned; lia).
  rewrite Z.add_0_l, trailing_free_exact by lia. reflexivity.
Qed.

Lemma compactMemory_invariants st :
  invariants st -> total_memory_size st < UINT_MODULUS ->
  invariants (compactMemory st).
Proof.
  intros Hinv Ht.
  pose proof (used_bounds st Hinv) as [Hu Hpos]. simpl in Hu.
  rewrite (compactMemory_exact st Hinv Ht). simpl.
  destruct Hinv as (_ & _ & Hp).
  pose proof (positive_sizes_owned _ Hp) as Hpo.
  set (owned := owned_blocks (memory_head st)) in *.
  set (used := sum_sizes owned) in *.
  split; [split|split]; simpl.
  - destruct (used =? total_memory_size st) eqn:E.
    + apply Z.eqb_eq in E. destruct owned; simpl in *; [lia|discriminate].
    + destruct (repack 0 owned); discriminate.
  - apply contiguous_app. exists (0 + used). split.
    + apply contiguous_repack; auto; lia.
    + destruct (used =? total_memory_size st) eqn:E; simpl.
      * apply Z.eqb_eq in E. lia.
      * split; [reflexivity|]. lia.
  - apply no_adjacent_free_allocated.
    + apply allocated_repack, owned_blocks_allocated.
    + destruct (_ =? _); simpl; lia.
  - unfold positive_sizes. apply Forall_app. split.
    + apply positive_sizes_repack, Hpo.
    + destruct (used =? total_memory_size st) eqn:E; constructor; auto.
      simpl. apply Z.eqb_neq in E. lia.
Qed.

(** * Every command keeps the invariants *)

Lemma requestMemory_total id sz strategy st :
  total_memory_size (fst (requestMemory id sz strategy st))
  = total_memory_size st.
Proof.
  unfold requestMemory.
  destruct (select_block _ _ _); [|reflexivity].
  destruct (_ !! _); reflexivity.
Qed.

Lemma releaseMemory_total id st :
  total_memory_size (fst (releaseMemory id st)) = total_memory_size st.
Proof. unfold releaseMemory. destruct (find_owned _ _ _); reflexivity. Qed.

Lemma compactMemory_total st :
  total_memory_size (compactMemory st) = total_memory_size st.
Proof. rewrite compactMemory_unfold. reflexivity. Qed.

Lemma executeCommand_total c st :
  total_memory_size (executeCommand c st) = total_memory_size st.
Proof.
  destruct c; simpl;
    auto using requestMemory_total, releaseMemory_total, compactMemory_total.
Qed.

Lemma executeCommand_invariants c st :
  valid_command c -> total_memory_size st < UINT_MODULUS ->
  invariants st -> invariants (executeCommand c st).
Proof.
  intros Hv Ht Hinv. destruct c as [id sz strategy|id| |]; simpl.
  - destruct Hv as [Hsz _]. apply requestMemory_invariants; auto.
  - apply releaseMemory_invariants; auto.
    pose proof UINT_below_SIZE. lia.
  - apply compactMemory_invariants; auto.
  - exact Hinv.
Qed.

Lemma run_invariants cs : forall st,
  Forall valid_command cs -> total_memory_size st < UINT_MODULUS ->
  invariants st -> invariants (run cs st).
Proof.
  induction cs as [|c cs IH]; intros st Hv Ht Hinv; simpl; [exact Hinv|].
  inversion Hv; subst. apply IH; auto.
  - rewrite executeCommand_total. exact Ht.
  - apply executeCommand_invariants; auto.
Qed.

Lemma initializeMemory_invariants n :
  0 < n -> invariants (initializeMemory n).
Proof.
  intros Hn. split; [split|split]; simpl.
  - discriminate.
  - split; [reflexivity|lia].
  - auto.
  - constructor; [exact Hn|constructor].
Qed.

(** * Identifiers *)

Lemma strncpy_short s : forall n,
  (String.length s <= n)%nat -> strncpy n s = s.
Proof.
  induction s as [|c s IH]; intros n H; destruct n; simpl in *;
    try reflexivity; try lia.
  f_equal. apply IH. lia.
Qed.

Lemma mark_owned_fits id b :
  fits_id_field id ->
  mark_owned id b = mkMemoryBlock (start_address b) (size b) true id.
Proof.
  intros H. unfold mark_owned. f_equal. apply strncpy_short.
  unfold fits_id_field in H. lia.
Qed.

Ltac concrete_invariants :=
  unfold invariants, partitions, positive_sizes; simpl;
  repeat split; try discriminate; try lia; repeat constructor; simpl; lia.

Example session_runs : run session (initializeMemory 100) = session_state.
Proof. reflexivity. Qed.

Example session_compacted :
  reportStatus (compactMemory session_state)
  = [(0, 19, "P2"%string); (20, 99, "Unused"%string)].
Proof. reflexivity. Qed.

(** * The claims *)

(** C1: from an initialized allocator, after any sequence of requests
    (positive size, strategy F, B or W), releases and compactions, the
    blocks partition [0, total_size) in ascending order (the first
    starts at 0, each ends where the next starts, the last ends at
    total_size), no two neighbours are both free, and every size is
    positive. *)
Theorem invariants_after_every_sequence n cs :
  valid_memory_size n -> Forall valid_command cs ->
  let st := run cs (initializeMemory n) in
  partition_as_stated (memory_head st) (total_memory_size st) /\
  no_adjacent_free_as_stated (memory_head st) /\
  (forall b, b ∈ memory_head st -> 0 < size b).
Proof.
  intros [Hpos Hmax] Hcs. simpl.
  assert (Hinv : invariants (run cs (initializeMemory n))).
  { apply run_invariants.
    - exact Hcs.
    - simpl. pose proof MAX_MEMORY_below_UINT. lia.
    - apply initializeMemory_invariants, Hpos. }
  destruct Hinv as (H1 & H2 & H3).
  split; [apply partitions_as_stated, H1|].
  split; [apply no_adjacent_free_stated, H2|].
  apply Forall_forall, H3.
Qed.

Lemma invariants_after_every_sequence_witness :
  valid_memory_size 100 /\ Forall valid_command (session ++ [C]) /\
  let st := run (session ++ [C]) (initializeMemory 100) in
  partition_as_stated (memory_head st) (total_memory_size st) /\
  no_adjacent_free_as_stated (memory_head st) /\
  (forall b, b ∈ memory_head st -> 0 < size b).
Proof.
  assert (Hn : valid_memory_size 100)
    by (unfold valid_memory_size, MAX_MEMORY; lia).
  assert (Hcs : Forall valid_command (session ++ [C])).
  { repeat constructor; unfold known_strategy; simpl; auto; lia. }
  split; [exact Hn|]. split; [exact Hcs|].
  apply (invariants_after_every_sequence 100 (session ++ [C]) Hn Hcs).
Defined.

(** C2: on a state that satisfies the invariants, compaction leaves the
    allocated blocks of the input, in their order, each with its size
    and its process and each starting where the sizes of the allocated
    blocks before it add up to, followed by one free block from there
    to the total size; that block is left out exactly when the
    allocated sizes add up to the total size. *)
Theorem compact_repacks_owned_blocks st :
  invariants st -> valid_memory_size (total_memory_size st) ->
  let owned := List.filter is_allocated (memory_head st) in
  let used := sum_sizes owned in
  exists moved,
    compactMemory st
    = mkAllocator
        (moved ++ (if used =? total_memory_size st then []
                   else [mkMemoryBlock used (total_memory_size st - used)
                                       false "FREE"]))
        (total_memory_size st) /\
    length moved = length owned /\
    forall k b, owned !! k = Some b ->
      moved !! k
      = Some (mkMemoryBlock (sum_sizes (take k owned)) (size b) true
                            (process_id b)).
Proof.
  intros Hinv [_ Hmax]. simpl.
  assert (Ht : total_memory_size st < UINT_MODULUS)
    by (pose proof MAX_MEMORY_below_UINT; lia).
  exists (repack 0 (owned_blocks (memory_head st))).
  split; [apply compactMemory_exact; assumption|].
  split; [apply length_repack|].
  intros k b Hk.
  pose proof (used_bounds st Hinv) as [Hu _]. simpl in Hu.
  destruct Hinv as (_ & _ & Hp).
  fold (owned_blocks (memory_head st)) in Hk |- *.
  rewrite (repack_lookup _ 0 k b (positive_sizes_owned _ Hp)) by (auto; lia).
  pose proof (owned_blocks_allocated (memory_head st)) as Ha.
  rewrite Forall_lookup in Ha. specialize (Ha _ _ Hk).
  unfold set_start. rewrite Ha, Z.add_0_l. reflexivity.
Qed.

Lemma compact_repacks_owned_blocks_witness :
  invariants session_state /\
  valid_memory_size (total_memory_size session_state) /\
  compactMemory session_state
  = mkAllocator [mkMemoryBlock 0 20 true "P2";
                 mkMemoryBlock 20 80 false "FREE"] 100.
Proof.
  assert (Hinv : invariants session_state) by concrete_invariants.
  assert (Hn : valid_memory_size (total_memory_size session_state))
    by (unfold valid_memory_size, MAX_MEMORY; simpl; lia).
  split; [exact Hinv|]. split; [exact Hn|].
  destruct (compact_repacks_owned_blocks session_state Hinv Hn)
    as (moved & Heq & Hlen & Hmoved).
  rewrite Heq. simpl in *.
  specialize (Hmoved 0%nat _ eq_refl). simpl in Hmoved.
  destruct moved as [|m [|m' moved]]; simpl in *; try discriminate.
  inversion Hmoved; subst. reflexivity.
Defined.

Lemma merge_with_prev_kept pre cur :
  (forall front p, pre = front ++ [p] -> is_allocated p = true) ->
  merge_with_prev pre cur = (pre, cur).
Proof.
  intros H. unfold merge_with_prev.
  destruct pre as [|p front _] using rev_ind; [reflexivity|].
  rewrite last_snoc, (H front p eq_refl). reflexivity.
Qed.

Lemma merge_with_prev_taken front p cur :
  is_allocated p = false ->
  merge_with_prev (front ++ [p]) cur = (front, absorb p cur).
Proof.
  intros H. unfold merge_with_prev.
  rewrite last_snoc, H, removelast_last. reflexivity.
Qed.

Lemma merge_with_next_kept cur post :
  (forall n rest, post = n :: rest -> is_allocated n = true) ->
  merge_with_next cur post = (cur, post).
Proof.
  intros H. unfold merge_with_next.
  destruct post as [|n rest]; [reflexivity|].
  rewrite (H n rest eq_refl). reflexivity.
Qed.

Lemma merge_with_next_taken cur n rest :
  is_allocated n = false ->
  merge_with_next cur (n :: rest) = (absorb cur n, rest).
Proof. intros H. unfold merge_with_next. rewrite H. reflexivity. Qed.

(** C3: a release turns the first block that is allocated to the
    process into a free block; if the block just before it is free the
    two become one free block, and if the block just behind it is free
    that one is taken in as well, once on each side; every other block,
    later blocks of the same process included, stays as it is.  Sizes
    add up in [size_t]. *)
Theorem release_frees_first_owned id pre b post total :
  (forall x, x ∈ pre -> is_allocated x = true -> process_id x <> id) ->
  is_allocated b = true -> process_id b = id ->
  let st := mkAllocator (pre ++ b :: post) total in
  let no_free_before :=
    forall front p, pre = front ++ [p] -> is_allocated p = true in
  let no_free_behind :=
    forall n rest, post = n :: rest -> is_allocated n = true in
  (no_free_before -> no_free_behind ->
   releaseMemory id st
   = (mkAllocator
        (pre ++ mkMemoryBlock (start_address b) (size b) false "FREE"
             :: post) total,
      Released)) /\
  (forall front p, pre = front ++ [p] -> is_allocated p = false ->
   no_free_behind ->
   releaseMemory id st
   = (mkAllocator
        (front ++ mkMemoryBlock (start_address p)
                                ((size p + size b) mod 2 ^ 64)
                                false (process_id p)
               :: post) total,
      Released)) /\
  (no_free_before ->
   forall n rest, post = n :: rest -> is_allocated n = false ->
   releaseMemory id st
   = (mkAllocator
        (pre ++ mkMemoryBlock (start_address b)
                              ((size b + size n) mod 2 ^ 64)
                              false "FREE"
             :: rest) total,
      Released)) /\
  (forall front p n rest,
   pre = front ++ [p] -> is_allocated p = false ->
   post = n :: rest -> is_allocated n = false ->
   releaseMemory id st
   = (mkAllocator
        (front ++ mkMemoryBlock
                    (start_address p)
                    (((size p + size b) mod 2 ^ 64 + size n) mod 2 ^ 64)
                    false (process_id p)
               :: rest) total,
      Released)).
Proof.
  intros Hpre Ha Hid. simpl.
  assert (Hpre' : not_owned_by id pre).
  { apply Forall_forall. intros x Hx. unfold owned_by.
    destruct (is_allocated x) eqn:Ex; [|reflexivity]. simpl.
    apply String.eqb_neq. apply Hpre; assumption. }
  assert (Hb : owned_by id b = true).
  { unfold owned_by. rewrite Ha, Hid. simpl. apply String.eqb_refl. }
  rewrite (releaseMemory_found id pre b post total Hpre' Hb).
  unfold released. split; [|split; [|split]].
  - intros Hbefore Hbehind.
    rewrite (merge_with_prev_kept _ _ Hbefore).
    rewrite (merge_with_next_kept _ _ Hbehind). reflexivity.
  - intros front p -> Hp Hbehind.
    rewrite (merge_with_prev_taken _ _ _ Hp).
    rewrite (merge_with_next_kept _ _ Hbehind).
    unfold absorb, set_size, mark_free, to_size_t, SIZE_MODULUS. simpl.
    rewrite Hp. reflexivity.
  - intros Hbefore n rest -> Hn.
    rewrite (merge_with_prev_kept _ _ Hbefore).
    rewrite (merge_with_next_taken _ _ _ Hn). reflexivity.
  - intros front p n rest -> Hp -> Hn.
    rewrite (merge_with_prev_taken _ _ _ Hp).
    rewrite (merge_with_next_taken _ _ _ Hn).
    unfold absorb, set_size, mark_free, to_size_t, SIZE_MODULUS. simpl.
    rewrite Hp. reflexivity.
Qed.

Lemma release_frees_first_owned_witness :
  (forall x, x ∈ [mkMemoryBlock 0 10 false "FREE";
                  mkMemoryBlock 10 10 true "P0"] ->
             is_allocated x = true -> process_id x <> "P1"%string) /\
  (forall front p,
     [mkMemoryBlock 0 10 false "FREE"; mkMemoryBlock 10 10 true "P0"]
     = front ++ [p] -> is_allocated p = true) /\
  releaseMemory "P1"
    (mkAllocator [mkMemoryBlock 0 10 false "FREE";
                  mkMemoryBlock 10 10 true "P0";
                  mkMemoryBlock 20 10 true "P1";
                  mkMemoryBlock 30 10 false "FREE";
                  mkMemoryBlock 40 10 false "FREE";
                  mkMemoryBlock 50 10 true "P1"] 60)
  = (mkAllocator [mkMemoryBlock 0 10 false "FREE";
                  mkMemoryBlock 10 10 true "P0";
                  mkMemoryBlock 20 20 false "FREE";
                  mkMemoryBlock 40 10 false "FREE";
                  mkMemoryBlock 50 10 true "P1"] 60, Released).
Proof.
  assert (Hpre : forall x, x ∈ [mkMemoryBlock 0 10 false "FREE";
                                mkMemoryBlock 10 10 true "P0"] ->
                           is_allocated x = true ->
                           process_id x <> "P1"%string).
  { intros x Hx Hax.
    repeat (apply elem_of_cons in Hx as [->|Hx];
            [simpl in *; congruence|]).
    inversion Hx. }
  assert (Hbefore : forall front p,
    [mkMemoryBlock 0 10 false "FREE"; mkMemoryBlock 10 10 true "P0"]
    = front ++ [p] -> is_allocated p = true).
  { intros front p H.
    destruct front as [|x [|y [|z front]]]; simpl in H; inversion H; subst;
      reflexivity. }
  split; [exact Hpre|]. split; [exact Hbefore|].
  exact (proj1 (proj2 (proj2
    (release_frees_first_owned "P1" _ (mkMemoryBlock 20 10 true "P1")
       [mkMemoryBlock 30 10 false "FREE";
        mkMemoryBlock 40 10 false "FREE";
        mkMemoryBlock 50 10 true "P1"] 60 Hpre eq_refl eq_refl)))
    Hbefore _ _ eq_refl eq_refl).
Defined.

Example release_merges_on_both_sides :
  releaseMemory "P1"
    (mkAllocator [mkMemoryBlock 0 10 false "FREE";
                  mkMemoryBlock 10 10 true "P1";
                  mkMemoryBlock 20 10 false "FREE";
                  mkMemoryBlock 30 10 true "P1"] 40)
  = (mkAllocator [mkMemoryBlock 0 30 false "FREE";
                  mkMemoryBlock 30 10 true "P1"] 40, Released).
Proof. reflexivity. Qed.

(** C4, as stated, fails: with an identifier of 100 characters the
    request on a fresh memory of 100 bytes succeeds and splits the
    block, but the label of the allocated block is not the identifier
    of the process: the field of a block takes 99 characters. *)
Lemma request_relabels_counterexample :
  let st := initializeMemory 100 in
  invariants st /\ valid_memory_size (total_memory_size st) /\
  String.length long_id = 100%nat /\
  select_block "F" 30 (memory_head st) = Some 0%nat /\
  memory_head st !! 0%nat = Some (mkMemoryBlock 0 100 false "FREE") /\
  snd (requestMemory long_id 30 "F" st) = Allocated 30 long_id 0 /\
  fst (requestMemory long_id 30 "F" st)
  <> mkAllocator [mkMemoryBlock 0 30 true long_id;
                  mkMemoryBlock 30 70 false "FREE"] 100.
Proof.
  simpl. split; [concrete_invariants|].
  split; [unfold valid_memory_size, MAX_MEMORY; lia|].
  repeat (split; [reflexivity|]).
  intros H.
  apply (f_equal (fun s => map (fun b => String.length (process_id b))
                               (memory_head s))) in H.
  vm_compute in H. discriminate H.
Qed.

(** C4, amended: a request of positive size [sz] that finds a candidate
    block [c] turns it into an allocated block with the same start;
    when [c] has exactly the size asked for nothing else happens,
    otherwise [c] keeps [sz] bytes and a new free block with the
    remaining [size c - sz] bytes is put right behind it at
    [start c + sz]; the blocks before and behind are those of the list
    before.  The label of the allocated block is the identifier of the
    process when that has fewer than 99 characters. *)
Theorem request_relabels_or_splits id sz strategy st i c :
  invariants st -> valid_memory_size (total_memory_size st) ->
  0 < sz ->
  select_block strategy sz (memory_head st) = Some i ->
  memory_head st !! i = Some c ->
  is_allocated c = false /\ sz <= size c /\
  exists label,
    ((String.length id < 99)%nat -> label = id) /\
    requestMemory id sz strategy st
    = (mkAllocator
         (take i (memory_head st)
          ++ (if size c =? sz
              then [mkMemoryBlock (start_address c) (size c) true label]
              else [mkMemoryBlock (start_address c) sz true label;
                    mkMemoryBlock (start_address c + sz) (size c - sz)
                                  false "FREE"])
          ++ drop (S i) (memory_head st))
         (total_memory_size st),
       Allocated sz id (start_address c)).
Proof.
  intros Hinv [_ Hmax] Hsz E Hi.
  destruct (select_block_fits _ _ _ _ E) as (c' & Hi' & Hfit).
  rewrite Hi in Hi'. inversion Hi'; subst c'. clear Hi'.
  destruct (fits_inv _ _ Hfit) as [Hfree Hle].
  split; [exact Hfree|]. split; [exact Hle|].
  exists (strncpy (ID_FIELD_SIZE - 1) id). split.
  { intros Hid. apply strncpy_short. unfold ID_FIELD_SIZE. lia. }
  unfold requestMemory. rewrite E, Hi.
  destruct (split_at _ _ _ Hi) as [Hl Hlen].
  destruct st as [l total]. simpl in *.
  remember (take i l) as pre eqn:Epre.
  remember (drop (S i) l) as post eqn:Epost.
  clear Epre Epost E Hi. subst l i.
  destruct Hinv as ((_ & Hc) & _ & Hp). simpl in *.
  pose proof (contiguous_bounds _ _ _ _ Hp Hc) as [Hlo Hhi].
  pose proof MAX_MEMORY_below_UINT. pose proof UINT_below_SIZE.
  f_equal. f_equal.
  destruct (size c =? sz) eqn:Heq.
  - apply Z.eqb_eq in Heq.
    rewrite allocate_at_exact by (apply Z.ltb_ge; lia). reflexivity.
  - apply Z.eqb_neq in Heq.
    rewrite allocate_at_split by (apply Z.ltb_lt; lia).
    rewrite to_uint_small, to_size_t_small by lia. reflexivity.
Qed.

Lemma request_relabels_or_splits_witness :
  invariants session_state /\
  valid_memory_size (total_memory_size session_state) /\
  0 < 10 /\
  select_block "W" 10 (memory_head session_state) = Some 2%nat /\
  memory_head session_state !! 2%nat
  = Some (mkMemoryBlock 50 50 false "FREE") /\
  (String.length "P3" < 99)%nat /\
  requestMemory "P3" 10 "W" session_state
  = (mkAllocator
       [mkMemoryBlock 0 30 false "FREE";
        mkMemoryBlock 30 20 true "P2";
        mkMemoryBlock 50 10 true "P3";
        mkMemoryBlock 60 40 false "FREE"]
       100,
     Allocated 10 "P3" 50).
Proof.
  assert (Hinv : invariants session_state) by concrete_invariants.
  assert (Hn : valid_memory_size (total_memory_size session_state))
    by (unfold valid_memory_size, MAX_MEMORY; simpl; lia).
  assert (Hsz : 0 < 10) by lia.
  assert (E : select_block "W" 10 (memory_head session_state) = Some 2%nat)
    by reflexivity.
  assert (Hi : memory_head session_state !! 2%nat
               = Some (mkMemoryBlock 50 50 false "FREE")) by reflexivity.
  assert (Hid : (String.length "P3" < 99)%nat) by (simpl; lia).
  repeat (split; [assumption|]).
  destruct (request_relabels_or_splits "P3" 10 "W" session_state
              2 _ Hinv Hn Hsz E Hi) as (_ & _ & label & Hlabel & Hreq).
  rewrite Hreq, (Hlabel Hid). reflexivity.
Defined.

(** C5: when some free block has at least the size asked for, best fit
    returns a block that is free and has at least that size, no free
    block of at least that size is smaller, and among those of its size
    it is the first one in the list. *)
Theorem bestFit_selects_smallest sz l :
  (exists b, b ∈ l /\ is_allocated b = false /\ sz <= size b) ->
  exists i c,
    bestFit sz l = Some i /\ l !! i = Some c /\
    is_allocated c = false /\ sz <= size c /\
    forall j d, l !! j = Some d -> is_allocated d = false -> sz <= size d ->
      size c <= size d /\ (size d = size c -> (i <= j)%nat).
Proof.
  intros (b & Hb & Hfree & Hle).
  pose proof (bestFit_result sz l) as R. unfold bestFit.
  destruct (bestFit_from None 0 sz l) as [[j c]|]; simpl in *.
  - destruct R as (Hj & Hfit & Hmin).
    apply fits_inv in Hfit as [Hcfree Hcle].
    exists j, c. split; [reflexivity|]. split; [exact Hj|].
    split; [exact Hcfree|]. split; [exact Hcle|].
    intros k d Hk Hdfree Hdle. apply (Hmin k d Hk).
    unfold fits. rewrite Hdfree. simpl. apply Z.leb_le. exact Hdle.
  - apply list_elem_of_lookup in Hb as [k Hk].
    pose proof (none_fits_lookup _ _ _ _ R Hk) as Hn.
    unfold fits in Hn. rewrite Hfree in Hn. simpl in Hn.
    apply Z.leb_gt in Hn. lia.
Qed.

Lemma bestFit_selects_smallest_witness :
  (exists b, b ∈ [mkMemoryBlock 0 30 false "FREE";
                  mkMemoryBlock 30 20 true "P2";
                  mkMemoryBlock 50 20 false "FREE";
                  mkMemoryBlock 70 10 true "P4";
                  mkMemoryBlock 80 20 false "FREE"] /\
             is_allocated b = false /\ 15 <= size b) /\
  bestFit 15 [mkMemoryBlock 0 30 false "FREE";
              mkMemoryBlock 30 20 true "P2";
              mkMemoryBlock 50 20 false "FREE";
              mkMemoryBlock 70 10 true "P4";
              mkMemoryBlock 80 20 false "FREE"] = Some 2%nat.
Proof.
  assert (H : exists b, b ∈ [mkMemoryBlock 0 30 false "FREE";
                             mkMemoryBlock 30 20 true "P2";
                             mkMemoryBlock 50 20 false "FREE";
                             mkMemoryBlock 70 10 true "P4";
                             mkMemoryBlock 80 20 false "FREE"] /\
                        is_allocated b = false /\ 15 <= size b).
  { exists (mkMemoryBlock 0 30 false "FREE").
    split; [left|simpl; split; [reflexivity|lia]]. }
  split; [exact H|].
  destruct (bestFit_selects_smallest 15 _ H)
    as (i & c & Hbest & Hi & Hfree & Hle & Hmin).
  rewrite Hbest. f_equal.
  destruct (Hmin 2%nat (mkMemoryBlock 50 20 false "FREE") eq_refl eq_refl
              ltac:(simpl; lia)) as [Hsmall Hfirst].
  destruct i as [|[|[|[|[|i]]]]]; simpl in Hi; inversion Hi; subst c;
    simpl in *; try discriminate; try lia; reflexivity.
Defined.

Example bestFit_first_of_ties :
  bestFit 15 [mkMemoryBlock 0 30 false "FREE";
              mkMemoryBlock 30 20 true "P2";
              mkMemoryBlock 50 20 false "FREE";
              mkMemoryBlock 70 10 true "P4";
              mkMemoryBlock 80 20 false "FREE"] = Some 2%nat.
Proof. reflexivity. Qed.

(** * A request undone by a release *)

Lemma merge_with_prev_owned pre c x :
  no_adjacent_free (pre ++ [c]) -> is_allocated c = false ->
  merge_with_prev pre x = (pre, x).
Proof.
  intros Hn Hc. unfold merge_with_prev.
  destruct pre as [|p pre _] using rev_ind; [reflexivity|].
  rewrite last_snoc.
  rewrite (no_adjacent_free_prev pre p c Hc Hn). reflexivity.
Qed.

Lemma merge_with_next_owned c post x :
  no_adjacent_free (c :: post) -> is_allocated c = false ->
  merge_with_next x post = (x, post).
Proof.
  intros Hn Hc. unfold merge_with_next.
  destruct post as [|n rest]; [reflexivity|].
  rewrite (no_adjacent_free_next c n rest Hc Hn). reflexivity.
Qed.

Lemma owned_by_mark_owned id b :
  fits_id_field id -> owned_by id (mark_owned id b) = true.
Proof.
  intros H. rewrite mark_owned_fits by exact H.
  unfold owned_by. simpl. apply String.eqb_refl.
Qed.

Lemma layout_middle pre x y post :
  start_address x = start_address y -> size x = size y ->
  owner x = owner y ->
  layout (pre ++ x :: post) = layout (pre ++ y :: post).
Proof.
  intros H1 H2 H3. unfold layout. rewrite !map_app. simpl.
  rewrite H1, H2, H3. reflexivity.
Qed.

Lemma request_release_layout id sz pre c post total :
  0 < sz -> total < UINT_MODULUS -> fits_id_field id ->
  fits sz c = true -> not_owned_by id pre ->
  invariants (mkAllocator (pre ++ c :: post) total) ->
  let l1 := allocate_at id sz (length pre) c (pre ++ c :: post) in
  snd (releaseMemory id (mkAllocator l1 total)) = Released /\
  layout (memory_head (fst (releaseMemory id (mkAllocator l1 total))))
  = layout (pre ++ c :: post).
Proof.
  intros Hsz Ht Hid Hfit Hpre ((_ & Hc) & Hn & Hp). simpl in *.
  apply fits_inv in Hfit as [Hfree Hle].
  pose proof (contiguous_bounds _ _ _ _ Hp Hc) as [Hlo Hhi].
  pose proof UINT_below_SIZE as HU.
  apply no_adjacent_free_app in Hn as [Hn1 Hn2].
  destruct (sz <? size c) eqn:Hlt.
  - apply Z.ltb_lt in Hlt.
    rewrite allocate_at_split by (apply Z.ltb_lt; exact Hlt).
    rewrite releaseMemory_found
      by (auto using owned_by_mark_owned). simpl.
    split; [reflexivity|].
    unfold released.
    rewrite (merge_with_prev_owned pre c _ Hn1 Hfree). simpl.
    apply layout_middle; simpl.
    + reflexivity.
    + rewrite to_size_t_small with (z := size c - sz) by lia.
      rewrite to_size_t_small by lia. lia.
    + unfold owner. simpl. rewrite Hfree. reflexivity.
  - rewrite allocate_at_exact by exact Hlt.
    rewrite releaseMemory_found
      by (auto using owned_by_mark_owned). simpl.
    split; [reflexivity|].
    unfold released.
    rewrite (merge_with_prev_owned pre c _ Hn1 Hfree).
    rewrite (merge_with_next_owned c post _ Hn2 Hfree).
    apply layout_middle; simpl; try reflexivity.
    unfold owner. simpl. rewrite Hfree. reflexivity.
Qed.

(** C6, as stated, fails: after [initialize 100; RQ P1 30 F] the
    invariants hold; [RQ P1 20 F] succeeds at address 30; the [RL P1]
    that follows frees the block at 0, which P1 owned before, and
    leaves the block just allocated as it is, merged with nothing; the
    partition and labels are not those before the request. *)
Lemma request_then_release_counterexample :
  let st := first_request_state in
  let st1 := fst (requestMemory "P1" 20 "F" st) in
  let st2 := fst (releaseMemory "P1" st1) in
  invariants st /\
  snd (requestMemory "P1" 20 "F" st) = Allocated 20 "P1" 30 /\
  memory_head st1 !! 1%nat = Some (mkMemoryBlock 30 20 true "P1") /\
  memory_head st2 !! 1%nat = Some (mkMemoryBlock 30 20 true "P1") /\
  layout (memory_head st2) <> layout (memory_head st).
Proof.
  simpl. split; [concrete_invariants|].
  repeat (split; [reflexivity|]). discriminate.
Qed.

(** C6, amended: on a state that satisfies the invariants, a request of
    positive size that succeeds, followed at once by the release of the
    same process, gives back the partition and the labels from before
    the request, when no block in front of the chosen one is allocated
    to that process already and the identifier of the process has
    fewer than 99 characters, so that a block holds it whole. *)
Theorem request_then_release_restores id sz strategy st i :
  invariants st -> valid_memory_size (total_memory_size st) ->
  (String.length id < 99)%nat -> 0 < sz ->
  select_block strategy sz (memory_head st) = Some i ->
  (forall x, x ∈ take i (memory_head st) ->
             is_allocated x = true -> process_id x <> id) ->
  let st1 := fst (requestMemory id sz strategy st) in
  snd (releaseMemory id st1) = Released /\
  layout (memory_head (fst (releaseMemory id st1)))
  = layout (memory_head st) /\
  total_memory_size (fst (releaseMemory id st1)) = total_memory_size st.
Proof.
  intros Hinv [_ Hmax] Hlen99 Hsz E Hother. simpl.
  assert (Hid : fits_id_field id)
    by (unfold fits_id_field, ID_FIELD_SIZE; simpl; lia).
  assert (Hpre : not_owned_by id (take i (memory_head st))).
  { apply Forall_forall. intros x Hx. unfold owned_by.
    destruct (is_allocated x) eqn:Ex; [|reflexivity]. simpl.
    apply String.eqb_neq. apply Hother; assumption. }
  assert (Ht : total_memory_size st < UINT_MODULUS)
    by (pose proof MAX_MEMORY_below_UINT; lia).
  destruct (requestMemory_effect id _ _ _ _ E)
    as (pre & c & post & Hl & Hlen & Hfit & ->).
  destruct st as [l total]. simpl in *. subst l i.
  rewrite take_app_length in Hpre.
  destruct (request_release_layout id sz pre c post total
              Hsz Ht Hid Hfit Hpre Hinv) as [H1 H2].
  split; [exact H1|]. split; [exact H2|].
  apply releaseMemory_total.
Qed.

Lemma request_then_release_restores_witness :
  invariants session_state /\
  valid_memory_size (total_memory_size session_state) /\
  (String.length "P2" < 99)%nat /\ 0 < 10 /\
  select_block "B" 10 (memory_head session_state) = Some 0%nat /\
  (forall x, x ∈ take 0 (memory_head session_state) ->
             is_allocated x = true -> process_id x <> "P2"%string) /\
  memory_head (fst (requestMemory "P2" 10 "B" session_state))
  = [mkMemoryBlock 0 10 true "P2"; mkMemoryBlock 10 20 false "FREE";
     mkMemoryBlock 30 20 true "P2"; mkMemoryBlock 50 50 false "FREE"] /\
  layout (memory_head
            (fst (releaseMemory "P2"
                    (fst (requestMemory "P2" 10 "B" session_state)))))
  = [(0, 30, None); (30, 20, Some "P2"%string); (50, 50, None)].
Proof.
  assert (Hinv : invariants session_state) by concrete_invariants.
  assert (Hn : valid_memory_size (total_memory_size session_state))
    by (unfold valid_memory_size, MAX_MEMORY; simpl; lia).
  assert (Hid : (String.length "P2" < 99)%nat) by (simpl; lia).
  assert (Hsz : 0 < 10) by lia.
  assert (E : select_block "B" 10 (memory_head session_state) = Some 0%nat)
    by reflexivity.
  assert (Hpre : forall x, x ∈ take 0 (memory_head session_state) ->
                           is_allocated x = true ->
                           process_id x <> "P2"%string)
    by (intros x Hx; inversion Hx).
  repeat (split; [assumption|]).
  split; [reflexivity|].
  rewrite (proj1 (proj2 (request_then_release_restores "P2" 10 "B"
                           session_state 0 Hinv Hn Hid Hsz E Hpre))).
  reflexivity.
Defined.

(** With the identifier of 100 characters the block keeps the first 99
    of them, and the release that follows the request does not find
    the process. *)
Example release_misses_long_id :
  snd (requestMemory long_id 30 "F" (initializeMemory 100))
  = Allocated 30 long_id 0 /\
  snd (releaseMemory long_id
         (fst (requestMemory long_id 30 "F" (initializeMemory 100))))
  = NoSuchProcess.
Proof. split; vm_compute; reflexivity. Qed.

(** C7: compacting twice in a row gives the block list, starts, sizes
    and labels in order, that compacting once gives. *)
Theorem compact_is_idempotent st :
  compactMemory (compactMemory st) = compactMemory st.
Proof. apply compactMemory_twice. Qed.

(** C8: under strategy F, B or W, when no free block has at least the
    size asked for, a request reports insufficient space and leaves
    every block as it is. *)
Theorem request_without_room_changes_nothing id sz strategy st :
  known_strategy strategy ->
  (forall b, b ∈ memory_head st -> is_allocated b = false -> size b < sz) ->
  requestMemory id sz strategy st = (st, InsufficientSpace).
Proof.
  intros _ H. unfold requestMemory.
  rewrite select_block_none_fits; [reflexivity|].
  apply Forall_forall. intros b Hb. unfold fits.
  destruct (is_allocated b) eqn:Ha; [reflexivity|].
  simpl. apply Z.leb_gt. apply H; assumption.
Qed.

Lemma request_without_room_changes_nothing_witness :
  known_strategy "W" /\
  (forall b, b ∈ memory_head session_state ->
             is_allocated b = false -> size b < 51) /\
  requestMemory "P3" 51 "W" session_state
  = (session_state, InsufficientSpace).
Proof.
  assert (Hk : known_strategy "W") by (right; right; reflexivity).
  assert (H : forall b, b ∈ memory_head session_state ->
                        is_allocated b = false -> size b < 51).
  { intros b Hb _. simpl in Hb.
    repeat (apply elem_of_cons in Hb as [->|Hb]; [simpl; lia|]).
    inversion Hb. }
  split; [exact Hk|]. split; [exact H|].
  exact (request_without_room_changes_nothing "P3" 51 "W" session_state Hk H).
Defined.

(** C9: with a strategy character other than F, B and W no block is
    looked for: the request reports insufficient space and leaves every
    block as it is. *)
Theorem request_with_unknown_strategy id sz strategy st :
  ~ known_strategy strategy ->
  requestMemory id sz strategy st = (st, InsufficientSpace).
Proof.
  intros H. unfold requestMemory.
  rewrite select_block_unknown by exact H. reflexivity.
Qed.

Lemma request_with_unknown_strategy_witness :
  ~ known_strategy "f" /\
  requestMemory "P3" 10 "f" session_state = (session_state, InsufficientSpace).
Proof.
  assert (H : ~ known_strategy "f")
    by (intros [H | [H | H]]; discriminate H).
  split; [exact H|].
  exact (request_with_unknown_strategy "P3" 10 "f" session_state H).
Defined.

(** C10: a request of size 0 under strategy F, B or W, on a state that
    satisfies the invariants and has a free block, still picks a free
    block [c] and splits it: in the place of [c] stand an allocated
    block of size 0 and a free block of the size of [c], both at the
    start of [c]; the sizes are no longer all positive, which they
    stay when the size asked for is positive. *)
Theorem request_of_size_zero_splits id strategy st :
  invariants st -> valid_memory_size (total_memory_size st) ->
  known_strategy strategy ->
  (exists b, b ∈ memory_head st /\ is_allocated b = false) ->
  exists i c o,
    select_block strategy 0 (memory_head st) = Some i /\
    memory_head st !! i = Some c /\ is_allocated c = false /\
    is_allocated o = true /\ size o = 0 /\
    start_address o = start_address c /\
    memory_head (fst (requestMemory id 0 strategy st))
    = take i (memory_head st)
      ++ o :: mkMemoryBlock (start_address c) (size c) false "FREE"
      :: drop (S i) (memory_head st) /\
    ~ positive_sizes (memory_head (fst (requestMemory id 0 strategy st))) /\
    forall sz, 0 < sz ->
      positive_sizes (memory_head (fst (requestMemory id sz strategy st))).
Proof.
  intros Hinv [Hmin Hmax] Hk (b & Hb & Hfree).
  assert (Ht : total_memory_size st < UINT_MODULUS)
    by (pose proof MAX_MEMORY_below_UINT; lia).
  assert (Hkeep : forall sz, 0 < sz ->
    positive_sizes (memory_head (fst (requestMemory id sz strategy st)))).
  { intros sz Hsz.
    apply (requestMemory_invariants id sz strategy st Hsz Ht Hinv). }
  assert (Hn : ~ none_fits 0 (memory_head st)).
  { intros Hn. apply list_elem_of_lookup in Hb as [k Hk'].
    pose proof (none_fits_lookup _ _ _ _ Hn Hk') as Hf.
    unfold fits in Hf. rewrite Hfree in Hf. simpl in Hf.
    apply Z.leb_gt in Hf.
    destruct Hinv as (_ & _ & Hp). unfold positive_sizes in Hp.
    rewrite Forall_lookup in Hp. specialize (Hp _ _ Hk'). simpl in Hp. lia. }
  destruct (select_block_known _ _ _ Hk Hn) as [i E].
  destruct (select_block_fits _ _ _ _ E) as (c & Hi & Hfit).
  destruct (fits_inv _ _ Hfit) as [Hcfree _].
  exists i, c, (mark_owned id (set_size c 0)).
  split; [exact E|]. split; [exact Hi|]. split; [exact Hcfree|].
  split; [reflexivity|]. split; [reflexivity|]. split; [reflexivity|].
  assert (Heq : memory_head (fst (requestMemory id 0 strategy st))
    = take i (memory_head st)
      ++ mark_owned id (set_size c 0)
      :: mkMemoryBlock (start_address c) (size c) false "FREE"
      :: drop (S i) (memory_head st)).
  { unfold requestMemory. rewrite E, Hi. simpl.
    destruct (split_at _ _ _ Hi) as [Hl Hlen].
    destruct st as [l total]. simpl in *.
    remember (take i l) as pre eqn:Epre.
    remember (drop (S i) l) as post eqn:Epost.
    clear Epre Epost E Hi Hn Hb Hkeep. subst l i.
    destruct Hinv as ((_ & Hc) & _ & Hp). simpl in *.
    pose proof (contiguous_bounds _ _ _ _ Hp Hc) as [Hlo Hhi].
    assert (Hpos : 0 < size c).
    { unfold positive_sizes in Hp. rewrite Forall_app, Forall_cons in Hp.
      tauto. }
    pose proof UINT_below_SIZE.
    rewrite allocate_at_split by (apply Z.ltb_lt; exact Hpos).
    rewrite Z.add_0_r, Z.sub_0_r.
    rewrite to_uint_small, to_size_t_small by lia.
    reflexivity. }
  split; [exact Heq|]. split; [|exact Hkeep].
  rewrite Heq. unfold positive_sizes. rewrite Forall_app, Forall_cons.
  simpl. lia.
Qed.

Lemma request_of_size_zero_splits_witness :
  invariants session_state /\
  valid_memory_size (total_memory_size session_state) /\
  known_strategy "F" /\
  (exists b, b ∈ memory_head session_state /\ is_allocated b = false) /\
  exists i c o,
    select_block "F" 0 (memory_head session_state) = Some i /\
    memory_head session_state !! i = Some c /\ is_allocated c = false /\
    is_allocated o = true /\ size o = 0 /\
    start_address o = start_address c /\
    memory_head (fst (requestMemory "P3" 0 "F" session_state))
    = take i (memory_head session_state)
      ++ o :: mkMemoryBlock (start_address c) (size c) false "FREE"
      :: drop (S i) (memory_head session_state) /\
    ~ positive_sizes
        (memory_head (fst (requestMemory "P3" 0 "F" session_state))) /\
    forall sz, 0 < sz ->
      positive_sizes
        (memory_head (fst (requestMemory "P3" sz "F" session_state))).
Proof.
  assert (Hinv : invariants session_state) by concrete_invariants.
  assert (Hn : valid_memory_size (total_memory_size session_state))
    by (unfold valid_memory_size, MAX_MEMORY; simpl; lia).
  assert (Hk : known_strategy "F") by (left; reflexivity).
  assert (Hb : exists b, b ∈ memory_head session_state /\
                         is_allocated b = false).
  { exists (mkMemoryBlock 0 30 false "FREE"). split; [left|reflexivity]. }
  repeat (split; [assumption|]).
  exact (request_of_size_zero_splits "P3" "F" session_state Hinv Hn Hk Hb).
Defined.

Example request_of_size_zero :
  memory_head (fst (requestMemory "P3" 0 "F" session_state))
  = [mkMemoryBlock 0 0 true "P3";
     mkMemoryBlock 0 30 false "FREE";
     mkMemoryBlock 30 20 true "P2";
     mkMemoryBlock 50 50 false "FREE"].
Proof. reflexivity. Qed.

(** * Further properties of the searches *)

(** X1: first fit returns the position of a free block that is large
    enough and has no such block before it; it returns nothing only
    when no block of the list is free and large enough. *)
Theorem firstFit_selects_first sz l :
  match firstFit sz l with
  | Some i =>
      exists c, l !! i = Some c /\ is_allocated c = false /\ sz <= size c /\
        forall j d, (j < i)%nat -> l !! j = Some d ->
          is_allocated d = true \/ size d < sz
  | None =>
      forall d, d ∈ l -> is_allocated d = true \/ size d < sz
  end.
Proof.
  assert (Hno : forall d, fits sz d = false ->
                          is_allocated d = true \/ size d < sz).
  { intros d Hd. unfold fits in Hd.
    destruct (is_allocated d); [left; reflexivity|right].
    simpl in Hd. apply Z.leb_gt in Hd. exact Hd. }
  unfold firstFit. destruct (firstFit_from 0 sz l) as [i|] eqn:E.
  - apply firstFit_from_Some in E as (pre & c & post & -> & -> & Hc & Hpre).
    apply fits_inv in Hc as [Hfree Hle]. exists c. simpl.
    split; [apply lookup_at|]. split; [exact Hfree|]. split; [exact Hle|].
    intros j d Hj Hd. rewrite lookup_app_l in Hd by exact Hj.
    apply Hno. eapply none_fits_lookup; eauto.
  - intros d Hd. apply Hno.
    destruct (fits sz d) eqn:Hf; [|reflexivity].
    assert (Hn : ~ none_fits sz l).
    { intros Hn. apply list_elem_of_lookup in Hd as [k Hk].
      rewrite (none_fits_lookup _ _ _ _ Hn Hk) in Hf. discriminate. }
    destruct (firstFit_from_fits sz l 0 Hn) as [k Hk]. congruence.
Qed.

(** X2: when some free block has at least the size asked for, worst
    fit returns a block that is free and has at least that size, no
    free block is larger, and among those of its size it is the first
    one in the list. *)
Theorem worstFit_selects_largest sz l :
  (exists b, b ∈ l /\ is_allocated b = false /\ sz <= size b) ->
  exists i c,
    worstFit sz l = Some i /\ l !! i = Some c /\
    is_allocated c = false /\ sz <= size c /\
    forall j d, l !! j = Some d -> is_allocated d = false -> sz <= size d ->
      size d <= size c /\ (size d = size c -> (i <= j)%nat).
Proof.
  intros (b & Hb & Hfree & Hle).
  pose proof (worstFit_result sz l) as R. unfold worstFit.
  destruct (worstFit_from None 0 sz l) as [[j c]|]; simpl in *.
  - destruct R as (Hj & Hfit & Hmax).
    apply fits_inv in Hfit as [Hcfree Hcle].
    exists j, c. split; [reflexivity|]. split; [exact Hj|].
    split; [exact Hcfree|]. split; [exact Hcle|].
    intros k d Hk Hdfree Hdle. apply (Hmax k d Hk).
    unfold fits. rewrite Hdfree. simpl. apply Z.leb_le. exact Hdle.
  - apply list_elem_of_lookup in Hb as [k Hk].
    pose proof (none_fits_lookup _ _ _ _ R Hk) as Hn.
    unfold fits in Hn. rewrite Hfree in Hn. simpl in Hn.
    apply Z.leb_gt in Hn. lia.
Qed.

Lemma worstFit_selects_largest_witness :
  (exists b, b ∈ [mkMemoryBlock 0 20 false "FREE";
                  mkMemoryBlock 20 60 true "P2";
                  mkMemoryBlock 80 30 false "FREE";
                  mkMemoryBlock 110 30 false "FREE"] /\
             is_allocated b = false /\ 15 <= size b) /\
  worstFit 15 [mkMemoryBlock 0 20 false "FREE";
               mkMemoryBlock 20 60 true "P2";
               mkMemoryBlock 80 30 false "FREE";
               mkMemoryBlock 110 30 false "FREE"] = Some 2%nat.
Proof.
  assert (H : exists b, b ∈ [mkMemoryBlock 0 20 false "FREE";
                             mkMemoryBlock 20 60 true "P2";
                             mkMemoryBlock 80 30 false "FREE";
                             mkMemoryBlock 110 30 false "FREE"] /\
                        is_allocated b = false /\ 15 <= size b).
  { exists (mkMemoryBlock 0 20 false "FREE").
    split; [left|simpl; split; [reflexivity|lia]]. }
  split; [exact H|].
  destruct (worstFit_selects_largest 15 _ H)
    as (i & c & Hworst & Hi & Hfree & Hle & Hmax).
  rewrite Hworst. f_equal.
  destruct (Hmax 2%nat (mkMemoryBlock 80 30 false "FREE") eq_refl eq_refl
              ltac:(simpl; lia)) as [Hlarge Hfirst].
  destruct i as [|[|[|[|i]]]]; simpl in Hi; inversion Hi; subst c;
    simpl in *; try discriminate; try lia; reflexivity.
Defined.

Example worstFit_first_of_ties :
  worstFit 15 [mkMemoryBlock 0 20 false "FREE";
               mkMemoryBlock 20 60 true "P2";
               mkMemoryBlock 80 30 false "FREE";
               mkMemoryBlock 110 30 false "FREE"] = Some 2%nat.
Proof. reflexivity. Qed.

(** * Further properties of requests and releases *)

Lemma room_fits sz l :
  (exists b, b ∈ l /\ is_allocated b = false /\ sz <= size b) ->
  ~ none_fits sz l.
Proof.
  intros (b & Hb & Hfree & Hle) Hn.
  apply list_elem_of_lookup in Hb as [k Hk].
  pose proof (none_fits_lookup _ _ _ _ Hn Hk) as Hf.
  unfold fits in Hf. rewrite Hfree in Hf. simpl in Hf.
  apply Z.leb_gt in Hf. lia.
Qed.

(** X3: under strategy F, B or W a request succeeds whenever some free
    block has at least the size asked for; the address it reports is
    the start of a free block of the list that is large enough. *)
Theorem request_with_room_succeeds id sz strategy st :
  known_strategy strategy ->
  (exists b, b ∈ memory_head st /\ is_allocated b = false /\ sz <= size b) ->
  exists c, c ∈ memory_head st /\ is_allocated c = false /\ sz <= size c /\
    snd (requestMemory id sz strategy st)
    = Allocated sz id (start_address c).
Proof.
  intros Hk Hroom. apply room_fits in Hroom.
  destruct (select_block_known _ _ _ Hk Hroom) as [i E].
  destruct (select_block_fits _ _ _ _ E) as (c & Hi & Hfit).
  apply fits_inv in Hfit as [Hfree Hle].
  exists c. split; [apply list_elem_of_lookup; eauto|].
  split; [exact Hfree|]. split; [exact Hle|].
  unfold requestMemory. rewrite E, Hi. reflexivity.
Qed.

Lemma request_with_room_succeeds_witness :
  known_strategy "B" /\
  (exists b, b ∈ memory_head session_state /\
             is_allocated b = false /\ 40 <= size b) /\
  exists c, c ∈ memory_head session_state /\ is_allocated c = false /\
    40 <= size c /\
    snd (requestMemory "P3" 40 "B" session_state)
    = Allocated 40 "P3" (start_address c).
Proof.
  assert (Hk : known_strategy "B") by (right; left; reflexivity).
  assert (Hb : exists b, b ∈ memory_head session_state /\
                         is_allocated b = false /\ 40 <= size b).
  { exists (mkMemoryBlock 50 50 false "FREE").
    split; [right; right; left|simpl; split; [reflexivity|lia]]. }
  split; [exact Hk|]. split; [exact Hb|].
  exact (request_with_room_succeeds "P3" 40 "B" session_state Hk Hb).
Defined.

(** X4: a release reports that there is no such process exactly when
    no allocated block carries the identifier, and it then leaves the
    state as it is. *)
Theorem release_of_unknown_process id st :
  (snd (releaseMemory id st) = NoSuchProcess <->
   forall b, b ∈ memory_head st -> is_allocated b = true ->
             process_id b <> id) /\
  (snd (releaseMemory id st) = NoSuchProcess ->
   fst (releaseMemory id st) = st).
Proof.
  assert (Hiff : not_owned_by id (memory_head st) <->
                 forall b, b ∈ memory_head st -> is_allocated b = true ->
                           process_id b <> id).
  { unfold not_owned_by. rewrite Forall_forall. unfold owned_by.
    split; intros H b Hb.
    - intros Ha Hid. specialize (H b Hb). rewrite Ha in H. simpl in H.
      apply String.eqb_neq in H. contradiction.
    - destruct (is_allocated b) eqn:Ha; [|reflexivity]. simpl.
      apply String.eqb_neq. apply H; assumption. }
  rewrite <- Hiff. unfold releaseMemory.
  destruct (find_owned id 0 (memory_head st)) as [i|] eqn:E; simpl.
  - split; [|discriminate]. split; [discriminate|].
    intros H. apply (find_owned_None id _ 0%nat) in H. congruence.
  - split; [|reflexivity]. split; [|reflexivity].
    intros _. apply (find_owned_None id _ 0%nat). exact E.
Qed.

Lemma owned_blocks_cons_free b l :
  is_allocated b = false -> owned_blocks (b :: l) = owned_blocks l.
Proof. intros H. unfold owned_blocks. simpl. rewrite H. reflexivity. Qed.

Lemma owned_blocks_cons_owned b l :
  is_allocated b = true -> owned_blocks (b :: l) = b :: owned_blocks l.
Proof. intros H. unfold owned_blocks. simpl. rewrite H. reflexivity. Qed.

Lemma sum_sizes_concat l1 l2 :
  sum_sizes (l1 ++ l2) = sum_sizes l1 + sum_sizes l2.
Proof. induction l1 as [|b l1 IH]; simpl; lia. Qed.

Lemma merge_with_prev_keeps_owned pre cur :
  is_allocated cur = false ->
  owned_blocks (fst (merge_with_prev pre cur)) = owned_blocks pre /\
  is_allocated (snd (merge_with_prev pre cur)) = false.
Proof.
  intros Hc. unfold merge_with_prev.
  destruct pre as [|p pre _] using rev_ind; [simpl; auto|].
  rewrite last_snoc. destruct (is_allocated p) eqn:Hp; cbn [fst snd]; [auto|].
  rewrite removelast_last, owned_blocks_app.
  rewrite owned_blocks_cons_free by exact Hp.
  split; [|exact Hp]. change (owned_blocks []) with (@nil MemoryBlock).
  rewrite app_nil_r. reflexivity.
Qed.

Lemma merge_with_next_keeps_owned cur post :
  is_allocated cur = false ->
  owned_blocks (snd (merge_with_next cur post)) = owned_blocks post /\
  is_allocated (fst (merge_with_next cur post)) = false.
Proof.
  intros Hc. unfold merge_with_next.
  destruct post as [|n rest]; cbn [fst snd]; [auto|].
  destruct (is_allocated n) eqn:Hn; cbn [fst snd]; [auto|].
  rewrite owned_blocks_cons_free by exact Hn. auto.
Qed.

Lemma owned_blocks_released pre b post :
  owned_blocks (released pre b post) = owned_blocks pre ++ owned_blocks post.
Proof.
  unfold released.
  destruct (merge_with_prev_keeps_owned pre (mark_free b) eq_refl)
    as [H1 H2].
  destruct (merge_with_prev pre (mark_free b)) as [front cur].
  simpl in H1, H2.
  destruct (merge_with_next_keeps_owned cur post H2) as [H3 H4].
  destruct (merge_with_next cur post) as [cur' back]. simpl in H3, H4.
  rewrite owned_blocks_app, owned_blocks_cons_free by exact H4.
  rewrite H1, H3. reflexivity.
Qed.

(** X5: a release takes the first block of the process out of the
    allocated blocks and leaves every other allocated block, those of
    the same process included, as it was and where it was in the
    order; the bytes in use go down by the size of that block. *)
Theorem release_keeps_other_allocations id pre b post total :
  not_owned_by id pre -> owned_by id b = true ->
  let st := mkAllocator (pre ++ b :: post) total in
  owned_blocks (memory_head (fst (releaseMemory id st)))
  = owned_blocks pre ++ owned_blocks post /\
  bytes_in_use (fst (releaseMemory id st)) = bytes_in_use st - size b.
Proof.
  intros Hpre Hb. simpl.
  rewrite (releaseMemory_found id pre b post total Hpre Hb).
  unfold bytes_in_use. simpl.
  rewrite owned_blocks_released. split; [reflexivity|].
  unfold owned_by in Hb. apply andb_true_iff in Hb as [Ha _].
  rewrite owned_blocks_app, owned_blocks_cons_owned by exact Ha.
  rewrite !sum_sizes_concat. simpl. lia.
Qed.

Lemma release_keeps_other_allocations_witness :
  not_owned_by "P1" [mkMemoryBlock 0 10 true "P0";
                     mkMemoryBlock 10 10 false "FREE"] /\
  owned_by "P1" (mkMemoryBlock 20 10 true "P1") = true /\
  owned_blocks
    (memory_head
       (fst (releaseMemory "P1"
               (mkAllocator [mkMemoryBlock 0 10 true "P0";
                             mkMemoryBlock 10 10 false "FREE";
                             mkMemoryBlock 20 10 true "P1";
                             mkMemoryBlock 30 10 false "FREE";
                             mkMemoryBlock 40 10 true "P1"] 50))))
  = [mkMemoryBlock 0 10 true "P0"; mkMemoryBlock 40 10 true "P1"].
Proof.
  assert (Hpre : not_owned_by "P1" [mkMemoryBlock 0 10 true "P0";
                                    mkMemoryBlock 10 10 false "FREE"])
    by (repeat constructor).
  assert (Hb : owned_by "P1" (mkMemoryBlock 20 10 true "P1") = true)
    by reflexivity.
  split; [exact Hpre|]. split; [exact Hb|].
  exact (proj1 (release_keeps_other_allocations "P1" _ _
                  [mkMemoryBlock 30 10 false "FREE";
                   mkMemoryBlock 40 10 true "P1"] 50 Hpre Hb)).
Defined.

(** X6: a request that finds a block adds one allocated block of
    exactly the size asked for, at the start of the block found, and
    leaves every allocated block of before as it was and where it was
    in the order; the bytes in use go up by the size asked for. *)
Theorem request_adds_one_allocation id sz strategy st i :
  select_block strategy sz (memory_head st) = Some i ->
  exists c o,
    memory_head st !! i = Some c /\
    owned_blocks (memory_head (fst (requestMemory id sz strategy st)))
    = owned_blocks (take i (memory_head st))
      ++ o :: owned_blocks (drop (S i) (memory_head st)) /\
    is_allocated o = true /\ start_address o = start_address c /\
    size o = sz /\
    bytes_in_use (fst (requestMemory id sz strategy st))
    = bytes_in_use st + sz.
Proof.
  intros E.
  destruct (requestMemory_effect id _ _ _ _ E)
    as (pre & c & post & Hl & Hlen & Hfit & Hreq).
  apply fits_inv in Hfit as [Hfree Hle].
  unfold bytes_in_use. rewrite Hreq, Hl. simpl. subst i.
  rewrite take_app_length.
  replace (drop (S (length pre)) (pre ++ c :: post)) with post
    by (symmetry; apply drop_at).
  rewrite (owned_blocks_app pre (c :: post)).
  rewrite (owned_blocks_cons_free c post Hfree).
  destruct (sz <? size c) eqn:Hlt.
  - rewrite allocate_at_split by exact Hlt.
    exists c, (mark_owned id (set_size c sz)).
    split; [apply lookup_at|].
    rewrite owned_blocks_app, owned_blocks_cons_owned by reflexivity.
    rewrite owned_blocks_cons_free by reflexivity.
    split; [reflexivity|]. repeat (split; [reflexivity|]).
    rewrite !sum_sizes_concat. simpl. lia.
  - rewrite allocate_at_exact by exact Hlt.
    apply Z.ltb_ge in Hlt.
    exists c, (mark_owned id c).
    split; [apply lookup_at|].
    rewrite owned_blocks_app, owned_blocks_cons_owned by reflexivity.
    split; [reflexivity|]. split; [reflexivity|]. split; [reflexivity|].
    split; [simpl; lia|].
    rewrite !sum_sizes_concat. simpl. lia.
Qed.

Lemma request_adds_one_allocation_witness :
  select_block "W" 10 (memory_head session_state) = Some 2%nat /\
  exists c o,
    memory_head session_state !! 2%nat = Some c /\
    owned_blocks
      (memory_head (fst (requestMemory "P3" 10 "W" session_state)))
    = owned_blocks (take 2 (memory_head session_state))
      ++ o :: owned_blocks (drop 3 (memory_head session_state)) /\
    is_allocated o = true /\ start_address o = start_address c /\
    size o = 10 /\
    bytes_in_use (fst (requestMemory "P3" 10 "W" session_state))
    = bytes_in_use session_state + 10.
Proof.
  assert (E : select_block "W" 10 (memory_head session_state) = Some 2%nat)
    by reflexivity.
  split; [exact E|].
  exact (request_adds_one_allocation "P3" 10 "W" session_state 2 E).
Defined.

(** * Compaction and the request that follows *)

Lemma allocated_none_fits sz l :
  Forall (fun b => is_allocated b = true) l -> none_fits sz l.
Proof.
  unfold none_fits. intros H. eapply Forall_impl; [exact H|].
  intros b Hb. unfold fits. rewrite Hb. reflexivity.
Qed.

(** X7: compaction makes every free byte available to the next
    request: on a state that satisfies the invariants, a request of
    positive size under strategy F, B or W that follows a compaction
    succeeds exactly when the size is at most the number of bytes not
    in use, and the block it gets starts where the bytes in use end. *)
Theorem request_after_compaction id sz strategy st :
  invariants st -> valid_memory_size (total_memory_size st) ->
  known_strategy strategy -> 0 < sz ->
  snd (requestMemory id sz strategy (compactMemory st))
  = if sz <=? total_memory_size st - bytes_in_use st
    then Allocated sz id (bytes_in_use st)
    else InsufficientSpace.
Proof.
  intros Hinv [_ Hmax] Hk Hsz.
  assert (Ht : total_memory_size st < UINT_MODULUS)
    by (pose proof MAX_MEMORY_below_UINT; lia).
  pose proof (used_bounds st Hinv) as [Hu _]. simpl in Hu.
  rewrite (compactMemory_exact st Hinv Ht). unfold bytes_in_use.
  set (owned := owned_blocks (memory_head st)) in *.
  set (used := sum_sizes owned) in *.
  set (total := total_memory_size st) in *.
  assert (Hrep : Forall (fun b => is_allocated b = true) (repack 0 owned))
    by apply allocated_repack, owned_blocks_allocated.
  destruct (sz <=? total - used) eqn:Hroom.
  - apply Z.leb_le in Hroom.
    assert (Hne : (used =? total) = false) by (apply Z.eqb_neq; lia).
    rewrite Hne.
    set (l := repack 0 owned ++ [free_block used (total - used)]).
    assert (Hn : ~ none_fits sz l).
    { apply room_fits. exists (free_block used (total - used)).
      split; [apply elem_of_app; right; left|]. simpl. split; [reflexivity|lia]. }
    destruct (select_block_known _ _ _ Hk Hn) as [i E].
    destruct (select_block_fits _ _ _ _ E) as (c & Hi & Hfit).
    unfold requestMemory. cbn [memory_head]. fold l. rewrite E, Hi.
    cbn [snd]. f_equal.
    apply fits_inv in Hfit as [Hfree _].
    apply list_elem_of_lookup_2 in Hi. apply elem_of_app in Hi as [Hi|Hi].
    + rewrite Forall_forall in Hrep. rewrite (Hrep c Hi) in Hfree.
      discriminate.
    + apply list_elem_of_singleton in Hi. subst c. reflexivity.
  - apply Z.leb_gt in Hroom.
    unfold requestMemory. cbn [memory_head].
    rewrite select_block_none_fits; [reflexivity|].
    apply Forall_app. split; [apply allocated_none_fits, Hrep|].
    destruct (used =? total); constructor; [|constructor].
    unfold fits. simpl. apply Z.leb_gt. lia.
Qed.

Lemma request_after_compaction_witness :
  invariants session_state /\
  valid_memory_size (total_memory_size session_state) /\
  known_strategy "F" /\ 0 < 80 /\
  snd (requestMemory "P3" 80 "F" (compactMemory session_state))
  = Allocated 80 "P3" 20 /\
  snd (requestMemory "P3" 80 "F" session_state) = InsufficientSpace.
Proof.
  assert (Hinv : invariants session_state) by concrete_invariants.
  assert (Hn : valid_memory_size (total_memory_size session_state))
    by (unfold valid_memory_size, MAX_MEMORY; simpl; lia).
  assert (Hk : known_strategy "F") by (left; reflexivity).
  assert (Hsz : 0 < 80) by lia.
  repeat (split; [assumption|]).
  split; [|reflexivity].
  exact (request_after_compaction "P3" 80 "F" session_state Hinv Hn Hk Hsz).
Defined.

(** * The report *)




(** * A release and the request that follows *)

Lemma merge_with_prev_size pre cur post total :
  total < SIZE_MODULUS ->
  positive_sizes (pre ++ cur :: post) ->
  contiguous 0 (pre ++ cur :: post) total ->
  size cur <= size (snd (merge_with_prev pre cur)).
Proof.
  intros Ht Hp Hc. unfold merge_with_prev.
  destruct pre as [|p pre _] using rev_ind; [simpl; lia|].
  rewrite last_snoc. destruct (is_allocated p); cbn [snd]; [lia|].
  rewrite <- app_assoc in Hp, Hc. simpl in Hp, Hc.
  rewrite (absorb_exact pre p cur post total Ht Hp Hc). simpl.
  unfold positive_sizes in Hp. rewrite Forall_app, Forall_cons in Hp.
  destruct Hp as (_ & Hp & _). lia.
Qed.

Lemma merge_with_next_size front cur post total :
  total < SIZE_MODULUS ->
  half_merged front cur post total ->
  size cur <= size (fst (merge_with_next cur post)).
Proof.
  intros Ht [_ Hc Hp _ _]. unfold merge_with_next.
  destruct post as [|n rest]; cbn [fst]; [lia|].
  destruct (is_allocated n); cbn [fst]; [lia|].
  rewrite (absorb_exact front cur n rest total Ht Hp Hc). simpl.
  unfold positive_sizes in Hp. rewrite Forall_app, !Forall_cons in Hp.
  destruct Hp as (_ & _ & Hn & _). lia.
Qed.

Lemma released_has_room pre b post total :
  total < SIZE_MODULUS ->
  invariants (mkAllocator (pre ++ b :: post) total) ->
  exists c, c ∈ released pre b post /\
            is_allocated c = false /\ size b <= size c.
Proof.
  intros Ht ((_ & Hc) & Hn & Hp). simpl in *.
  apply no_adjacent_free_app in Hn as [Hn1 Hn2].
  apply no_adjacent_free_init in Hn1. apply no_adjacent_free_tail in Hn2.
  pose proof (contiguous_mark_free _ _ _ _ _ Hc) as Hc'.
  pose proof (positive_sizes_mark_free _ _ _ Hp) as Hp'.
  pose proof (merge_with_prev_ok pre (mark_free b) post total Ht eq_refl
                Hc' Hp' Hn1 Hn2) as Hhalf.
  pose proof (merge_with_prev_size pre (mark_free b) post total Ht Hp' Hc')
    as Hs1.
  unfold released.
  destruct (merge_with_prev pre (mark_free b)) as [front cur].
  simpl in Hhalf, Hs1.
  pose proof (merge_with_next_size front cur post total Ht Hhalf) as Hs2.
  destruct (merge_with_next_keeps_owned cur post (hm_free _ _ _ _ Hhalf))
    as [_ Hfree].
  destruct (merge_with_next cur post) as [cur' back]. simpl in Hs2, Hfree.
  exists cur'. split; [apply elem_of_app; right; left|].
  split; [exact Hfree|lia].
Qed.

(** X9: on a state that satisfies the invariants, once a block has
    been released a request for at most the size of that block, under
    strategy F, B or W and for any process, succeeds. *)
Theorem request_after_release_succeeds id pre b post total id' sz strategy :
  let st := mkAllocator (pre ++ b :: post) total in
  invariants st -> valid_memory_size total ->
  not_owned_by id pre -> owned_by id b = true ->
  known_strategy strategy -> sz <= size b ->
  exists address,
    snd (requestMemory id' sz strategy (fst (releaseMemory id st)))
    = Allocated sz id' address.
Proof.
  intros st Hinv [_ Hmax] Hpre Hb Hk Hsz. subst st.
  assert (Ht : total < SIZE_MODULUS).
  { pose proof MAX_MEMORY_below_UINT. pose proof UINT_below_SIZE. lia. }
  rewrite (releaseMemory_found id pre b post total Hpre Hb).
  destruct (released_has_room pre b post total Ht Hinv)
    as (c & Hc & Hfree & Hle).
  assert (Hn : ~ none_fits sz (released pre b post)).
  { apply room_fits. exists c. split; [exact Hc|]. split; [exact Hfree|lia]. }
  destruct (select_block_known _ _ _ Hk Hn) as [i E].
  destruct (select_block_fits _ _ _ _ E) as (d & Hi & _).
  exists (start_address d).
  unfold requestMemory. cbn [fst memory_head]. rewrite E, Hi. reflexivity.
Qed.

Lemma request_after_release_succeeds_witness :
  invariants
    (mkAllocator ([mkMemoryBlock 0 30 false "FREE"]
                  ++ mkMemoryBlock 30 20 true "P2"
                  :: [mkMemoryBlock 50 50 false "FREE"]) 100) /\
  valid_memory_size 100 /\
  not_owned_by "P2" [mkMemoryBlock 0 30 false "FREE"] /\
  owned_by "P2" (mkMemoryBlock 30 20 true "P2") = true /\
  known_strategy "B" /\ 20 <= size (mkMemoryBlock 30 20 true "P2") /\
  exists address,
    snd (requestMemory "P5" 20 "B" (fst (releaseMemory "P2" session_state)))
    = Allocated 20 "P5" address.
Proof.
  assert (Hinv : invariants
    (mkAllocator ([mkMemoryBlock 0 30 false "FREE"]
                  ++ mkMemoryBlock 30 20 true "P2"
                  :: [mkMemoryBlock 50 50 false "FREE"]) 100))
    by concrete_invariants.
  assert (Hn : valid_memory_size 100)
    by (unfold valid_memory_size, MAX_MEMORY; lia).
  assert (Hpre : not_owned_by "P2" [mkMemoryBlock 0 30 false "FREE"])
    by (repeat constructor).
  assert (Hb : owned_by "P2" (mkMemoryBlock 30 20 true "P2") = true)
    by reflexivity.
  assert (Hk : known_strategy "B") by (right; left; reflexivity).
  assert (Hsz : 20 <= size (mkMemoryBlock 30 20 true "P2")) by (simpl; lia).
  repeat (split; [assumption|]).
  exact (request_after_release_succeeds "P2" _ _ _ 100 "P5" 20 "B"
           Hinv Hn Hpre Hb Hk Hsz).
Defined.

(** * Every address in one block *)

Lemma contiguous_lookup_bounds l : forall from upto j c,
  positive_sizes l -> contiguous from l upto -> l !! j = Some c ->
  from <= start_address c /\ start_address c + size c <= upto.
Proof.
  induction l as [|b l IH]; intros from upto j c Hp Hc Hj; [discriminate|].
  inversion Hp; subst. simpl in Hc. destruct Hc as [Hs Hc].
  destruct j as [|j]; simpl in Hj.
  - inversion Hj; subst c.
    apply contiguous_mono in Hc; auto. lia.
  - destruct (IH _ _ _ _ H2 Hc Hj). lia.
Qed.

Lemma contiguous_holds_address l : forall from upto a,
  positive_sizes l -> contiguous from l upto -> from <= a < upto ->
  exists i, holds_address l i a /\
            forall j, holds_address l j a -> j = i.
Proof.
  induction l as [|b l IH]; intros from upto a Hp Hc Ha; simpl in Hc.
  - lia.
  - inversion Hp; subst. destruct Hc as [Hs Hc].
    destruct (Z_lt_ge_dec a (start_address b + size b)) as [Hlt|Hge].
    + exists 0%nat. split.
      * exists b. split; [reflexivity|lia].
      * intros [|j] (c & Hj & Hin); [reflexivity|]. simpl in Hj.
        destruct (contiguous_lookup_bounds _ _ _ _ _ H2 Hc Hj). lia.
    + destruct (IH _ _ a H2 Hc ltac:(lia)) as (i & Hi & Huniq).
      exists (S i). split.
      * destruct Hi as (c & Hi & Hin). exists c. split; auto.
      * intros [|j] (c & Hj & Hin).
        { simpl in Hj. inversion Hj; subst c. lia. }
        { f_equal. apply Huniq. exists c. split; auto. }
Qed.

Lemma run_total cs : forall st,
  total_memory_size (run cs st) = total_memory_size st.
Proof.
  induction cs as [|c cs IH]; intros st; simpl; [reflexivity|].
  rewrite IH. apply executeCommand_total.
Qed.

(** X10: from an initialized allocator, after any sequence of requests
    (positive size, strategy F, B or W), releases and compactions,
    every address of the memory lies in exactly one block: no address
    is left out and none is in two blocks. *)
Theorem every_address_in_one_block n cs a :
  valid_memory_size n -> Forall valid_command cs -> 0 <= a < n ->
  let l := memory_head (run cs (initializeMemory n)) in
  exists i, holds_address l i a /\
            forall j, holds_address l j a -> j = i.
Proof.
  intros [Hpos Hmax] Hcs Ha. simpl.
  assert (Hinv : invariants (run cs (initializeMemory n))).
  { apply run_invariants.
    - exact Hcs.
    - simpl. pose proof MAX_MEMORY_below_UINT. lia.
    - apply initializeMemory_invariants, Hpos. }
  destruct Hinv as ((_ & Hc) & _ & Hp).
  rewrite run_total in Hc. simpl in Hc.
  exact (contiguous_holds_address _ 0 n a Hp Hc Ha).
Qed.

Lemma every_address_in_one_block_witness :
  valid_memory_size 100 /\ Forall valid_command session /\
  0 <= 42 < 100 /\
  exists i, holds_address (memory_head (run session (initializeMemory 100)))
                          i 42 /\
            forall j, holds_address
                        (memory_head (run session (initializeMemory 100)))
                        j 42 -> j = i.
Proof.
  assert (Hn : valid_memory_size 100)
    by (unfold valid_memory_size, MAX_MEMORY; lia).
  assert (Hcs : Forall valid_command session).
  { repeat constructor; unfold known_strategy; simpl; auto; lia. }
  assert (Ha : 0 <= 42 < 100) by lia.
  repeat (split; [assumption|]).
  exact (every_address_in_one_block 100 session 42 Hn Hcs Ha).
Defined.

(** * Requests of any size: the blocks still tile the memory *)

Lemma positive_nonnegative l : positive_sizes l -> nonnegative_sizes l.
Proof.
  unfold positive_sizes, nonnegative_sizes. intros H.
  eapply Forall_impl; [exact H|]. intros b Hb. simpl in Hb. lia.
Qed.

Lemma invariants_tiles st : invariants st -> tiles st.
Proof.
  intros (H1 & H2 & H3). split; [exact H1|]. split; [exact H2|].
  apply positive_nonnegative, H3.
Qed.

Lemma contiguous_mono_nn l : forall from upto,
  nonnegative_sizes l -> contiguous from l upto -> from <= upto.
Proof.
  induction l as [|x l IH]; simpl; intros from upto Hp H.
  - lia.
  - inversion Hp; subst. destruct H as [_ H]. apply IH in H; auto. lia.
Qed.

Lemma contiguous_bounds_nn front x back total :
  nonnegative_sizes (front ++ x :: back) ->
  contiguous 0 (front ++ x :: back) total ->
  0 <= start_address x /\ start_address x + size x <= total /\ 0 <= size x.
Proof.
  intros Hp Hc. unfold nonnegative_sizes in Hp.
  rewrite Forall_app, Forall_cons in Hp. destruct Hp as (Hf & Hx & Hb).
  apply contiguous_app in Hc as (mid & H1 & H2). simpl in H2.
  destruct H2 as [-> H2].
  apply contiguous_mono_nn in H1; auto. apply contiguous_mono_nn in H2; auto.
Qed.

Lemma absorb_exact_nn front a b back total :
  total < SIZE_MODULUS ->
  nonnegative_sizes (front ++ a :: b :: back) ->
  contiguous 0 (front ++ a :: b :: back) total ->
  absorb a b = set_size a (size a + size b).
Proof.
  intros Ht Hp Hc. unfold absorb. f_equal. apply to_size_t_small.
  pose proof (contiguous_bounds_nn front a (b :: back) total Hp Hc)
    as (Ha & _ & Ha').
  replace (front ++ a :: b :: back) with ((front ++ [a]) ++ b :: back) in *
    by (rewrite <- app_assoc; reflexivity).
  pose proof (contiguous_bounds_nn _ b back total Hp Hc) as (_ & Hb & Hb').
  apply contiguous_app in Hc as (mid & H1 & H2).
  apply contiguous_app in H1 as (m0 & H0 & H1). simpl in H1, H2.
  lia.
Qed.

Lemma nonnegative_sizes_merge front a b back :
  nonnegative_sizes (front ++ a :: b :: back) ->
  nonnegative_sizes (front ++ set_size a (size a + size b) :: back).
Proof.
  unfold nonnegative_sizes. rewrite !Forall_app, !Forall_cons. simpl.
  intros (Hf & Ha & Hb & Hback). repeat split; auto. lia.
Qed.

Lemma nonnegative_sizes_mark_free front b back :
  nonnegative_sizes (front ++ b :: back) ->
  nonnegative_sizes (front ++ mark_free b :: back).
Proof.
  unfold nonnegative_sizes. rewrite !Forall_app, !Forall_cons. simpl. tauto.
Qed.

Lemma merge_with_prev_tiles pre cur post total :
  total < SIZE_MODULUS ->
  is_allocated cur = false ->
  contiguous 0 (pre ++ cur :: post) total ->
  nonnegative_sizes (pre ++ cur :: post) ->
  no_adjacent_free pre ->
  let front := fst (merge_with_prev pre cur) in
  let cur' := snd (merge_with_prev pre cur) in
  is_allocated cur' = false /\
  contiguous 0 (front ++ cur' :: post) total /\
  nonnegative_sizes (front ++ cur' :: post) /\
  no_adjacent_free (front ++ [cur']).
Proof.
  intros Ht Hfree Hc Hp Hpre. unfold merge_with_prev.
  destruct pre as [|p pre _] using rev_ind.
  - simpl. auto.
  - rewrite last_snoc. destruct (is_allocated p) eqn:Ep; cbn [fst snd].
    + split; [exact Hfree|]. split; [exact Hc|]. split; [exact Hp|].
      rewrite <- app_assoc. simpl.
      apply no_adjacent_free_app. split; auto.
      simpl. rewrite Ep. auto.
    + rewrite removelast_last. rewrite <- app_assoc in Hc, Hp.
      simpl in Hc, Hp.
      rewrite (absorb_exact_nn pre p cur post total Ht Hp Hc).
      split; [exact Ep|].
      split; [apply contiguous_merge, Hc|].
      split; [apply nonnegative_sizes_merge, Hp|].
      eapply no_adjacent_free_snoc_flag; [|exact Hpre]. reflexivity.
Qed.

Lemma merge_with_next_tiles front cur post total :
  total < SIZE_MODULUS ->
  is_allocated cur = false ->
  contiguous 0 (front ++ cur :: post) total ->
  nonnegative_sizes (front ++ cur :: post) ->
  no_adjacent_free (front ++ [cur]) -> no_adjacent_free post ->
  let cur' := fst (merge_with_next cur post) in
  let back := snd (merge_with_next cur post) in
  contiguous 0 (front ++ cur' :: back) total /\
  nonnegative_sizes (front ++ cur' :: back) /\
  no_adjacent_free (front ++ cur' :: back).
Proof.
  intros Ht Hfree Hc Hp Hfront Hpost. unfold merge_with_next.
  destruct post as [|n rest]; cbn [fst snd].
  - repeat split; auto.
  - destruct (is_allocated n) eqn:En; cbn [fst snd].
    + split; [exact Hc|]. split; [exact Hp|].
      apply no_adjacent_free_app. split; auto.
      split; [|exact Hpost]. rewrite En. apply orb_true_r.
    + rewrite (absorb_exact_nn front cur n rest total Ht Hp Hc).
      split; [apply contiguous_merge, Hc|].
      split; [apply nonnegative_sizes_merge, Hp|].
      apply no_adjacent_free_app. split.
      * eapply no_adjacent_free_snoc_flag; [|exact Hfront]. reflexivity.
      * eapply no_adjacent_free_cons_flag; [|exact Hpost].
        simpl. congruence.
Qed.

Lemma released_tiles pre b post total :
  total < SIZE_MODULUS ->
  tiles (mkAllocator (pre ++ b :: post) total) ->
  tiles (mkAllocator (released pre b post) total).
Proof.
  intros Ht ((_ & Hc) & Hn & Hp). simpl in *.
  apply no_adjacent_free_app in Hn as [Hn1 Hn2].
  apply no_adjacent_free_init in Hn1. apply no_adjacent_free_tail in Hn2.
  pose proof (merge_with_prev_tiles pre (mark_free b) post total Ht eq_refl
    (contiguous_mark_free _ _ _ _ _ Hc)
    (nonnegative_sizes_mark_free _ _ _ Hp) Hn1) as Hhalf.
  unfold released.
  destruct (merge_with_prev pre (mark_free b)) as [front cur].
  simpl in Hhalf. destruct Hhalf as (Hf & Hc1 & Hp1 & Hn3).
  pose proof (merge_with_next_tiles front cur post total Ht Hf Hc1 Hp1
                Hn3 Hn2) as Hfull.
  destruct (merge_with_next cur post) as [cur' back].
  simpl in Hfull. destruct Hfull as (H1 & H2 & H3).
  split; [split|split]; simpl; auto.
  destruct front; discriminate.
Qed.

Lemma releaseMemory_tiles id st :
  total_memory_size st < SIZE_MODULUS ->
  tiles st -> tiles (fst (releaseMemory id st)).
Proof.
  intros Ht Hinv. destruct st as [l total]. unfold releaseMemory. simpl.
  destruct (find_owned id 0 l) as [i|] eqn:E; simpl; auto.
  apply find_owned_Some in E as (pre & b & post & -> & -> & Hb & Hpre).
  simpl. rewrite release_at_spec. apply released_tiles; auto.
Qed.

Lemma allocate_at_tiles id sz pre c post total :
  0 <= sz -> total < UINT_MODULUS -> fits sz c = true ->
  tiles (mkAllocator (pre ++ c :: post) total) ->
  tiles (mkAllocator (allocate_at id sz (length pre) c (pre ++ c :: post))
                     total).
Proof.
  intros Hsz Ht Hfit ((_ & Hc) & Hn & Hp). simpl in *.
  apply fits_inv in Hfit as [Hfree Hle].
  pose proof (contiguous_bounds_nn _ _ _ _ Hp Hc) as (Hlo & Hhi & _).
  pose proof UINT_below_SIZE as HU.
  apply no_adjacent_free_app in Hn as [Hn1 Hn2].
  destruct (sz <? size c) eqn:Hlt.
  - apply Z.ltb_lt in Hlt.
    rewrite allocate_at_split by (apply Z.ltb_lt; exact Hlt).
    rewrite to_uint_small, to_size_t_small by lia.
    split; [split|split]; simpl.
    + destruct pre; discriminate.
    + apply contiguous_app in Hc as (mid & H1 & H2).
      apply contiguous_app. exists mid. split; auto.
      simpl in *. destruct H2 as [Hs H2].
      split; auto. split; [lia|].
      replace (mid + sz + (size c - sz)) with (mid + size c) by lia.
      exact H2.
    + apply no_adjacent_free_app. split.
      * apply no_adjacent_free_snoc_owned; [reflexivity|].
        eapply no_adjacent_free_init; eauto.
      * apply no_adjacent_free_cons_owned; [reflexivity|].
        eapply no_adjacent_free_cons_flag; [|exact Hn2].
        simpl. exact Hfree.
    + unfold nonnegative_sizes in *.
      rewrite !Forall_app, !Forall_cons in *. simpl.
      destruct Hp as (? & ? & ?). repeat split; auto; lia.
  - rewrite allocate_at_exact by exact Hlt.
    split; [split|split]; simpl.
    + destruct pre; discriminate.
    + apply contiguous_app in Hc as (mid & H1 & H2).
      apply contiguous_app. exists mid. split; auto.
    + apply no_adjacent_free_app. split.
      * apply no_adjacent_free_snoc_owned; [reflexivity|].
        eapply no_adjacent_free_init; eauto.
      * apply no_adjacent_free_cons_owned; [reflexivity|].
        eapply no_adjacent_free_tail; eauto.
    + unfold nonnegative_sizes in *.
      rewrite !Forall_app, !Forall_cons in *. simpl. tauto.
Qed.

Lemma requestMemory_tiles id sz strategy st :
  0 <= sz -> total_memory_size st < UINT_MODULUS ->
  tiles st -> tiles (fst (requestMemory id sz strategy st)).
Proof.
  intros Hsz Ht Hinv.
  destruct (select_block strategy sz (memory_head st)) as [i|] eqn:E.
  - destruct (requestMemory_effect id _ _ _ _ E)
      as (pre & c & post & Hl & _ & Hfit & ->).
    simpl. destruct st as [l total]. simpl in *. subst l.
    apply allocate_at_tiles; auto.
  - unfold requestMemory. rewrite E. exact Hinv.
Qed.

Lemma sum_sizes_nonneg_nn l : nonnegative_sizes l -> 0 <= sum_sizes l.
Proof. induction 1 as [|b l Hb _ IH]; simpl; lia. Qed.

Lemma nonnegative_sizes_owned l :
  nonnegative_sizes l -> nonnegative_sizes (owned_blocks l).
Proof.
  unfold nonnegative_sizes, owned_blocks. rewrite !Forall_forall.
  intros H b Hb. apply H.
  apply list_elem_of_In. apply list_elem_of_In, List.filter_In in Hb. tauto.
Qed.

Lemma sum_sizes_owned_nn l :
  nonnegative_sizes l -> sum_sizes (owned_blocks l) <= sum_sizes l.
Proof.
  induction 1 as [|b l Hb _ IH]; simpl; [lia|].
  unfold owned_blocks in *. simpl. destruct (is_allocated b); simpl; lia.
Qed.

Lemma cursor_after_sum_nn l : forall n,
  nonnegative_sizes l -> 0 <= n -> n + sum_sizes l < UINT_MODULUS ->
  cursor_after n l = n + sum_sizes l.
Proof.
  induction l as [|x l IH]; intros n Hp Hn Hs; simpl in *; [lia|].
  inversion Hp; subst.
  pose proof (sum_sizes_nonneg_nn l H2).
  rewrite to_uint_small by lia. rewrite IH by (auto; lia). lia.
Qed.

Lemma contiguous_repack_nn l : forall n,
  nonnegative_sizes l -> 0 <= n -> n + sum_sizes l < UINT_MODULUS ->
  contiguous n (repack n l) (n + sum_sizes l).
Proof.
  induction l as [|x l IH]; intros n Hp Hn Hs; simpl in *; [lia|].
  inversion Hp; subst.
  pose proof (sum_sizes_nonneg_nn l H2).
  split; [reflexivity|].
  rewrite to_uint_small by lia.
  replace (n + (size x + sum_sizes l)) with (n + size x + sum_sizes l) by lia.
  apply IH; auto; lia.
Qed.

Lemma nonnegative_sizes_repack l : forall n,
  nonnegative_sizes l -> nonnegative_sizes (repack n l).
Proof.
  induction l as [|x l IH]; intros n Hp; simpl; [constructor|].
  inversion Hp; subst. constructor; [exact H1|]. apply IH, H2.
Qed.

Lemma compactMemory_tiles st :
  0 < total_memory_size st < UINT_MODULUS ->
  tiles st -> tiles (compactMemory st).
Proof.
  intros [Hpos Ht] ((_ & Hc) & _ & Hp).
  pose proof (sum_sizes_contiguous _ _ _ Hc) as Hsum.
  pose proof (sum_sizes_owned_nn _ Hp) as Hle.
  pose proof (nonnegative_sizes_owned _ Hp) as Hpo.
  pose proof (sum_sizes_nonneg_nn _ Hpo) as Hge.
  pose proof UINT_below_SIZE.
  rewrite compactMemory_unfold.
  rewrite cursor_after_sum_nn by (auto; lia).
  rewrite Z.add_0_l, trailing_free_exact by lia.
  set (owned := owned_blocks (memory_head st)) in *.
  set (used := sum_sizes owned) in *.
  split; [split|split]; simpl.
  - destruct (used =? total_memory_size st) eqn:E.
    + apply Z.eqb_eq in E. destruct owned; simpl in *; [lia|discriminate].
    + destruct (repack 0 owned); discriminate.
  - apply contiguous_app. exists (0 + used). split.
    + apply contiguous_repack_nn; auto; lia.
    + destruct (used =? total_memory_size st) eqn:E; simpl.
      * apply Z.eqb_eq in E. lia.
      * split; [reflexivity|]. lia.
  - apply no_adjacent_free_allocated.
    + apply allocated_repack, owned_blocks_allocated.
    + destruct (_ =? _); simpl; lia.
  - unfold nonnegative_sizes. apply Forall_app. split.
    + apply nonnegative_sizes_repack, Hpo.
    + destruct (used =? total_memory_size st) eqn:E; constructor; auto.
      simpl. apply Z.eqb_neq in E. lia.
Qed.

Lemma executeCommand_tiles c st :
  typed_command c -> 0 < total_memory_size st < UINT_MODULUS ->
  tiles st -> tiles (executeCommand c st).
Proof.
  intros Hv Ht Hinv. destruct c as [id sz strategy|id| |]; simpl.
  - destruct Hv as [Hsz _]. apply requestMemory_tiles; auto. lia.
  - apply releaseMemory_tiles; auto.
    pose proof UINT_below_SIZE. lia.
  - apply compactMemory_tiles; auto.
  - exact Hinv.
Qed.

Lemma run_tiles cs : forall st,
  Forall typed_command cs -> 0 < total_memory_size st < UINT_MODULUS ->
  tiles st -> tiles (run cs st).
Proof.
  induction cs as [|c cs IH]; intros st Hv Ht Hinv; simpl; [exact Hinv|].
  inversion Hv; subst. apply IH; auto.
  - rewrite executeCommand_total. exact Ht.
  - apply executeCommand_tiles; auto.
Qed.

Lemma tiles_as_stated st :
  tiles st ->
  partition_as_stated (memory_head st) (total_memory_size st) /\
  no_adjacent_free_as_stated (memory_head st) /\
  (forall b, b ∈ memory_head st -> 0 <= size b).
Proof.
  intros (H1 & H2 & H3).
  split; [apply partitions_as_stated, H1|].
  split; [apply no_adjacent_free_stated, H2|].
  apply Forall_forall, H3.
Qed.

(** X11: from an initialized allocator, after any sequence of
    commands, requests of size zero and requests with a strategy
    character that is none of F, B, W included, the blocks still follow
    each other from 0 to the total size in list order, no two
    neighbours are both free, and no size is negative. *)
Theorem blocks_tile_after_any_commands n cs :
  valid_memory_size n -> Forall typed_command cs ->
  let st := run cs (initializeMemory n) in
  partition_as_stated (memory_head st) (total_memory_size st) /\
  no_adjacent_free_as_stated (memory_head st) /\
  (forall b, b ∈ memory_head st -> 0 <= size b).
Proof.
  intros [Hpos Hmax] Hcs. simpl. apply tiles_as_stated.
  apply run_tiles.
  - exact Hcs.
  - simpl. pose proof MAX_MEMORY_below_UINT. lia.
  - apply invariants_tiles, initializeMemory_invariants, Hpos.
Qed.

Lemma blocks_tile_after_any_commands_witness :
  valid_memory_size 100 /\
  Forall typed_command [RQ "P1" 0 "F"; RQ "P2" 100 "W"; RL "P1";
                        RQ "P3" 5 "x"; C] /\
  let st := run [RQ "P1" 0 "F"; RQ "P2" 100 "W"; RL "P1";
                 RQ "P3" 5 "x"; C] (initializeMemory 100) in
  partition_as_stated (memory_head st) (total_memory_size st) /\
  no_adjacent_free_as_stated (memory_head st) /\
  (forall b, b ∈ memory_head st -> 0 <= size b).
Proof.
  assert (Hn : valid_memory_size 100)
    by (unfold valid_memory_size, MAX_MEMORY; lia).
  assert (Hcs : Forall typed_command [RQ "P1" 0 "F"; RQ "P2" 100 "W";
                                      RL "P1"; RQ "P3" 5 "x"; C]).
  { repeat constructor; unfold size_t_value, SIZE_MODULUS; simpl; lia. }
  split; [exact Hn|]. split; [exact Hcs|].
  apply (blocks_tile_after_any_commands 100 _ Hn Hcs).
Defined.

Example free_block_of_size_zero :
  memory_head (run [RQ "P1" 0 "F"; RQ "P2" 100 "W"; RL "P1"]
                   (initializeMemory 100))
  = [mkMemoryBlock 0 0 false "FREE"; mkMemoryBlock 0 100 true "P2"].
Proof. reflexivity. Qed.

(** * strtok on a token *)

Lemma skip_delimiters_token delims tok tail :
  is_token delims tok ->
  skip_delimiters delims (tok ++ tail)%string = (tok ++ tail)%string.
Proof.
  intros [Hne Hno]. destruct tok as [|c tok]; [contradiction|].
  simpl in *. apply andb_true_iff in Hno as [Hc _].
  apply negb_true_iff in Hc. rewrite Hc. reflexivity.
Qed.

Lemma scan_token_append delims tok tail :
  no_delimiter delims tok = true -> ends_token delims tail ->
  scan_token delims (tok ++ tail)%string = (tok, string_drop 1 tail).
Proof.
  intros Hno Htail. induction tok as [|c tok IH]; simpl in *.
  - destruct Htail as [-> | (d & rest & -> & Hd)]; simpl; [reflexivity|].
    rewrite Hd. reflexivity.
  - apply andb_true_iff in Hno as [Hc Hno].
    apply negb_true_iff in Hc. rewrite Hc, (IH Hno). reflexivity.
Qed.

Lemma strtok_token delims tok tail :
  is_token delims tok -> ends_token delims tail ->
  strtok delims (tok ++ tail)%string = (Some tok, string_drop 1 tail).
Proof.
  intros Htok Htail. unfold strtok.
  rewrite (skip_delimiters_token delims tok tail Htok).
  pose proof (scan_token_append delims tok tail (proj2 Htok) Htail) as Hs.
  destruct Htok as [Hne _]. destruct tok as [|c tok]; [contradiction|].
  change (String c tok ++ tail)%string with (String c (tok ++ tail)%string)
    in *.
  cbv iota beta. rewrite Hs. reflexivity.
Qed.

Lemma ends_token_space delims rest :
  is_delimiter delims " " = true -> ends_token delims (String " " rest).
Proof. intros H. right. exists " "%char, rest. auto. Qed.

(** * Lines that are well formed *)

(** X12: a line [RL], one space, an identifier without space and
    newline, then nothing or a space or newline and anything, is the
    release of that identifier. *)
Theorem release_line_decoded atoi id tail :
  is_token SPACE_NEWLINE id -> ends_token SPACE_NEWLINE tail ->
  decodeCommand atoi ("RL " ++ id ++ tail)%string = Call (RL id).
Proof.
  intros Hid Htail. unfold decodeCommand.
  change ("RL " ++ id ++ tail)%string
    with ("RL" ++ String " " (id ++ tail))%string.
  rewrite (strtok_token SPACE_NEWLINE "RL" (String " " (id ++ tail)%string))
    by (try (split; [discriminate|reflexivity]);
        apply ends_token_space; reflexivity).
  cbn [string_drop String.eqb Ascii.eqb Bool.eqb].
  rewrite (strtok_token SPACE_NEWLINE id tail Hid Htail). reflexivity.
Qed.

Lemma release_line_decoded_witness :
  is_token SPACE_NEWLINE "P1" /\
  ends_token SPACE_NEWLINE (String "010" EmptyString) /\
  decodeCommand (fun s => fst (decimal s))
                ("RL " ++ "P1" ++ String "010" EmptyString)%string
  = Call (RL "P1").
Proof.
  assert (Hid : is_token SPACE_NEWLINE "P1")
    by (split; [discriminate|reflexivity]).
  assert (Htail : ends_token SPACE_NEWLINE (String "010" EmptyString)).
  { right. exists "010"%char, EmptyString. split; reflexivity. }
  split; [exact Hid|]. split; [exact Htail|].
  exact (release_line_decoded (fun s => fst (decimal s)) "P1" _ Hid Htail).
Defined.

(** X13: a line [RQ], then, one space apart, an identifier, a size and
    a strategy text, none with a space in it and the strategy text
    without newline, then nothing or a space or newline and anything,
    is the request for that identifier, with the size that [atoi] reads
    converted to [size_t] and the first character of the strategy
    text as strategy. *)
Theorem request_line_decoded atoi id n s tail :
  is_token SPACE id -> is_token SPACE n -> is_token SPACE_NEWLINE s ->
  ends_token SPACE_NEWLINE tail ->
  decodeCommand atoi ("RQ " ++ id ++ " " ++ n ++ " " ++ s ++ tail)%string
  = Call (RQ id (to_size_t (atoi n)) (first_char s)).
Proof.
  intros Hid Hn Hs Htail. unfold decodeCommand.
  change ("RQ " ++ id ++ " " ++ n ++ " " ++ s ++ tail)%string
    with ("RQ" ++ String " "
            (id ++ String " " (n ++ String " " (s ++ tail))))%string.
  rewrite (strtok_token SPACE_NEWLINE "RQ")
    by (try (split; [discriminate|reflexivity]);
        apply ends_token_space; reflexivity).
  cbn [string_drop String.eqb Ascii.eqb Bool.eqb].
  rewrite (strtok_token SPACE id) by (auto; apply ends_token_space; reflexivity).
  cbn [string_drop].
  rewrite (strtok_token SPACE n) by (auto; apply ends_token_space; reflexivity).
  cbn [string_drop].
  rewrite (strtok_token SPACE_NEWLINE s tail Hs Htail). reflexivity.
Qed.

Lemma request_line_decoded_witness :
  is_token SPACE "P1" /\ is_token SPACE "30" /\
  is_token SPACE_NEWLINE "First" /\
  ends_token SPACE_NEWLINE (String "010" EmptyString) /\
  decodeCommand (fun s => fst (decimal s))
    ("RQ " ++ "P1" ++ " " ++ "30" ++ " " ++ "First"
           ++ String "010" EmptyString)%string
  = Call (RQ "P1" 30 "F").
Proof.
  assert (Hid : is_token SPACE "P1") by (split; [discriminate|reflexivity]).
  assert (Hn : is_token SPACE "30") by (split; [discriminate|reflexivity]).
  assert (Hs : is_token SPACE_NEWLINE "First")
    by (split; [discriminate|reflexivity]).
  assert (Htail : ends_token SPACE_NEWLINE (String "010" EmptyString)).
  { right. exists "010"%char, EmptyString. split; reflexivity. }
  repeat (split; [assumption|]).
  exact (request_line_decoded (fun s => fst (decimal s)) "P1" "30" "First" _
           Hid Hn Hs Htail).
Defined.

(** * Lines that are not well formed *)

Lemma strtok_all_delimiters delims s :
  all_delimiters delims s = true -> strtok delims s = (None, EmptyString).
Proof.
  intros H. unfold strtok.
  assert (Hs : skip_delimiters delims s = EmptyString).
  { induction s as [|c s IH]; simpl in *; [reflexivity|].
    apply andb_true_iff in H as [Hc Hs]. rewrite Hc. auto. }
  rewrite Hs. reflexivity.
Qed.

Lemma no_delimiter_space s :
  no_delimiter SPACE_NEWLINE s = true -> no_delimiter SPACE s = true.
Proof.
  induction s as [|c s IH]; simpl; [reflexivity|].
  rewrite !andb_true_iff, !negb_true_iff, !orb_false_iff.
  intros ((H1 & H2 & _) & Hs). auto.
Qed.

Lemma is_token_end_of_line s eol :
  is_token SPACE_NEWLINE s -> end_of_line eol ->
  is_token SPACE (s ++ eol)%string.
Proof.
  intros [Hne Hno] Heol. split.
  - destruct s; [contradiction|discriminate].
  - apply no_delimiter_space in Hno.
    induction s as [|c s IH]; simpl in *.
    + destruct Heol as [-> | ->]; reflexivity.
    + apply andb_true_iff in Hno as [Hc Hs]. rewrite Hc. simpl.
      destruct s as [|c' s'].
      * simpl. destruct Heol as [-> | ->]; reflexivity.
      * apply IH; [discriminate|exact Hs].
Qed.

Lemma end_of_line_ends_token eol :
  end_of_line eol -> ends_token SPACE_NEWLINE eol.
Proof.
  intros [-> | ->]; [left; reflexivity|].
  right. exists "010"%char, EmptyString. split; reflexivity.
Qed.

Lemma string_append_nil s : (s ++ "")%string = s.
Proof. induction s as [|c s IH]; simpl; [reflexivity|]. rewrite IH. reflexivity. Qed.

Lemma strtok_last_token delims tok :
  is_token delims tok -> strtok delims tok = (Some tok, EmptyString).
Proof.
  intros H. rewrite <- (string_append_nil tok) at 1.
  rewrite (strtok_token delims tok EmptyString H); [reflexivity|].
  left. reflexivity.
Qed.

(** X14: a request line that ends before its third argument is
    refused as an invalid RQ command, and a release line without
    identifier as an invalid RL command; the state stays as it is. *)
Theorem incomplete_line_refused atoi id n eol st :
  is_token SPACE_NEWLINE id -> is_token SPACE_NEWLINE n -> end_of_line eol ->
  decodeCommand atoi ("RQ" ++ eol)%string = InvalidRQ /\
  decodeCommand atoi ("RQ " ++ id ++ eol)%string = InvalidRQ /\
  decodeCommand atoi ("RQ " ++ id ++ " " ++ n ++ eol)%string = InvalidRQ /\
  decodeCommand atoi ("RL" ++ eol)%string = InvalidRL /\
  executeLine atoi ("RQ " ++ id ++ " " ++ n ++ eol)%string st = Some st /\
  executeLine atoi ("RL" ++ eol)%string st = Some st.
Proof.
  intros Hid Hn Heol.
  assert (Hverb : forall verb rest,
    is_token SPACE_NEWLINE verb -> ends_token SPACE_NEWLINE rest ->
    strtok SPACE_NEWLINE (verb ++ rest)%string
    = (Some verb, string_drop 1 rest)) by (intros; apply strtok_token; auto).
  assert (HRQ : is_token SPACE_NEWLINE "RQ")
    by (split; [discriminate|reflexivity]).
  assert (HRL : is_token SPACE_NEWLINE "RL")
    by (split; [discriminate|reflexivity]).
  assert (Hdrop : string_drop 1 eol = EmptyString)
    by (destruct Heol as [-> | ->]; reflexivity).
  assert (H0 : decodeCommand atoi ("RQ" ++ eol)%string = InvalidRQ).
  { unfold decodeCommand.
    rewrite (Hverb "RQ"%string eol HRQ (end_of_line_ends_token _ Heol)).
    rewrite Hdrop. reflexivity. }
  assert (H1 : decodeCommand atoi ("RQ " ++ id ++ eol)%string = InvalidRQ).
  { unfold decodeCommand.
    change ("RQ " ++ id ++ eol)%string
      with ("RQ" ++ String " " (id ++ eol))%string.
    rewrite (Hverb "RQ"%string _ HRQ)
      by (apply ends_token_space; reflexivity).
    cbn [string_drop String.eqb Ascii.eqb Bool.eqb].
    rewrite (strtok_last_token SPACE _ (is_token_end_of_line _ _ Hid Heol)).
    reflexivity. }
  assert (Hid' : is_token SPACE id)
    by (split; [apply Hid|apply no_delimiter_space, Hid]).
  assert (H2 : decodeCommand atoi ("RQ " ++ id ++ " " ++ n ++ eol)%string
               = InvalidRQ).
  { unfold decodeCommand.
    change ("RQ " ++ id ++ " " ++ n ++ eol)%string
      with ("RQ" ++ String " " (id ++ String " " (n ++ eol)))%string.
    rewrite (Hverb "RQ"%string _ HRQ)
      by (apply ends_token_space; reflexivity).
    cbn [string_drop String.eqb Ascii.eqb Bool.eqb].
    rewrite (strtok_token SPACE id _ Hid')
      by (apply ends_token_space; reflexivity).
    cbn [string_drop].
    rewrite (strtok_last_token SPACE _ (is_token_end_of_line _ _ Hn Heol)).
    reflexivity. }
  assert (H3 : decodeCommand atoi ("RL" ++ eol)%string = InvalidRL).
  { unfold decodeCommand.
    rewrite (Hverb "RL"%string eol HRL (end_of_line_ends_token _ Heol)).
    rewrite Hdrop. reflexivity. }
  repeat (split; [assumption|]).
  unfold executeLine. rewrite H2, H3. split; reflexivity.
Qed.

Lemma incomplete_line_refused_witness :
  is_token SPACE_NEWLINE "P1" /\ is_token SPACE_NEWLINE "30" /\
  end_of_line (String "010" EmptyString) /\
  decodeCommand (fun s => fst (decimal s))
                ("RQ " ++ "P1" ++ " " ++ "30" ++ String "010" EmptyString)%string
  = InvalidRQ.
Proof.
  assert (Hid : is_token SPACE_NEWLINE "P1")
    by (split; [discriminate|reflexivity]).
  assert (Hn : is_token SPACE_NEWLINE "30")
    by (split; [discriminate|reflexivity]).
  assert (Heol : end_of_line (String "010" EmptyString))
    by (right; reflexivity).
  repeat (split; [assumption|]).
  exact (proj1 (proj2 (proj2
    (incomplete_line_refused (fun s => fst (decimal s)) "P1" "30" _
       session_state Hid Hn Heol)))).
Defined.

Lemma not_verb_eqb s :
  ~ is_verb s ->
  String.eqb s "RQ" = false /\ String.eqb s "RL" = false /\
  String.eqb s "C" = false /\ String.eqb s "STAT" = false /\
  String.eqb s "X" = false.
Proof.
  intros H. unfold is_verb in H.
  repeat split; apply String.eqb_neq; intros ->; apply H; auto 6.
Qed.

(** X15: a line without any word, and a line whose first word is none
    of RQ, RL, C, STAT and X, is refused as an invalid command and
    leaves the state as it is. *)
Theorem unknown_line_refused atoi st :
  (forall blank, all_delimiters SPACE_NEWLINE blank = true ->
     decodeCommand atoi blank = InvalidCommand /\
     executeLine atoi blank st = Some st) /\
  (forall word tail,
     is_token SPACE_NEWLINE word -> ends_token SPACE_NEWLINE tail ->
     ~ is_verb word ->
     decodeCommand atoi (word ++ tail)%string = InvalidCommand /\
     executeLine atoi (word ++ tail)%string st = Some st).
Proof.
  split.
  - intros blank Hb.
    assert (H : decodeCommand atoi blank = InvalidCommand).
    { unfold decodeCommand. rewrite (strtok_all_delimiters _ _ Hb).
      reflexivity. }
    split; [exact H|]. unfold executeLine. rewrite H. reflexivity.
  - intros word tail Hw Ht Hv.
    assert (H : decodeCommand atoi (word ++ tail)%string = InvalidCommand).
    { unfold decodeCommand. rewrite (strtok_token _ _ _ Hw Ht).
      destruct (not_verb_eqb word Hv) as (-> & -> & -> & -> & ->).
      reflexivity. }
    split; [exact H|]. unfold executeLine. rewrite H. reflexivity.
Qed.

Example lower_case_verb_refused :
  decodeCommand (fun s => fst (decimal s))
                ("rq P1 30 F" ++ String "010" EmptyString)%string
  = InvalidCommand.
Proof. reflexivity. Qed.

(** * The end of the program *)

Lemma main_loop_exit atoi before : forall x after st,
  decodeCommand atoi x = Exit ->
  main_loop atoi (before ++ x :: after) st = main_loop atoi before st.
Proof.
  induction before as [|l before IH]; intros x after st Hx; simpl.
  - unfold executeLine. rewrite Hx. reflexivity.
  - destruct (executeLine atoi l st) as [st'|]; [|reflexivity].
    apply IH, Hx.
Qed.

(** X16: a line whose first word is X ends the program: the lines
    behind it have no effect on the state. *)
Theorem exit_line_ends_program atoi before tail after st :
  ends_token SPACE_NEWLINE tail ->
  main_loop atoi (before ++ ("X" ++ tail)%string :: after) st
  = main_loop atoi before st.
Proof.
  intros Ht. apply main_loop_exit. unfold decodeCommand.
  assert (HX : is_token SPACE_NEWLINE "X")
    by (split; [discriminate|reflexivity]).
  rewrite (strtok_token SPACE_NEWLINE "X" tail HX Ht).
  reflexivity.
Qed.

Lemma exit_line_ends_program_witness :
  ends_token SPACE_NEWLINE (String "010" EmptyString) /\
  main_loop (fun s => fst (decimal s))
    ([("RQ P1 30 F" ++ String "010" EmptyString)%string]
     ++ ("X" ++ String "010" EmptyString)%string
     :: [("RQ P2 20 B" ++ String "010" EmptyString)%string])
    (initializeMemory 100)
  = first_request_state.
Proof.
  assert (Htail : ends_token SPACE_NEWLINE (String "010" EmptyString)).
  { right. exists "010"%char, EmptyString. split; reflexivity. }
  split; [exact Htail|].
  exact (exit_line_ends_program (fun s => fst (decimal s))
           [("RQ P1 30 F" ++ String "010" EmptyString)%string] _
           [("RQ P2 20 B" ++ String "010" EmptyString)%string]
           (initializeMemory 100) Htail).
Defined.

(** * The whole program *)






(** * Compaction on any state *)

Lemma repack_sizes_owners l : forall n,
  map (fun b => (size b, process_id b)) (repack n l)
  = map (fun b => (size b, process_id b)) l.
Proof. induction l as [|b l IH]; intros n; simpl; f_equal; auto. Qed.

(** X18: on every state, blocks of size zero included, compaction
    keeps the allocated blocks, each with its size and its process, in
    their order, keeps the bytes in use, and leaves no free block
    other than the last block of the list. *)
Theorem compaction_keeps_allocations st :
  map (fun b => (size b, process_id b))
      (owned_blocks (memory_head (compactMemory st)))
  = map (fun b => (size b, process_id b)) (owned_blocks (memory_head st)) /\
  bytes_in_use (compactMemory st) = bytes_in_use st /\
  forall i b, memory_head (compactMemory st) !! i = Some b ->
    is_allocated b = false ->
    S i = length (memory_head (compactMemory st)).
Proof.
  rewrite compactMemory_unfold. unfold bytes_in_use. simpl.
  set (owned := owned_blocks (memory_head st)).
  set (tail := trailing_free _ _).
  assert (Hrep : Forall (fun b => is_allocated b = true) (repack 0 owned))
    by apply allocated_repack, owned_blocks_allocated.
  assert (Ho : owned_blocks (repack 0 owned ++ tail) = repack 0 owned).
  { rewrite owned_blocks_app. unfold tail.
    rewrite owned_blocks_trailing_free, app_nil_r.
    apply owned_blocks_repack, owned_blocks_allocated. }
  rewrite Ho. split; [apply repack_sizes_owners|]. split.
  - clear. generalize 0. induction owned as [|b l IH]; intros n; simpl;
      [reflexivity|]. rewrite IH. reflexivity.
  - intros i b Hi Hfree.
    destruct (decide (i < length (repack 0 owned))%nat) as [Hlt|Hge].
    + rewrite lookup_app_l in Hi by exact Hlt.
      rewrite Forall_lookup in Hrep. rewrite (Hrep _ _ Hi) in Hfree.
      discriminate.
    + apply lookup_lt_Some in Hi. rewrite length_app in *.
      assert (length tail <= 1)%nat.
      { unfold tail, trailing_free. destruct (_ <? _); simpl; lia. }
      lia.
Qed.

(** * The properties above on the session state *)

Lemma firstFit_selects_first_witness :
  match firstFit 40 (memory_head session_state) with
  | Some i =>
      exists c, memory_head session_state !! i = Some c /\
        is_allocated c = false /\ 40 <= size c /\
        forall j d, (j < i)%nat -> memory_head session_state !! j = Some d ->
          is_allocated d = true \/ size d < 40
  | None =>
      forall d, d ∈ memory_head session_state ->
        is_allocated d = true \/ size d < 40
  end.
Proof. exact (firstFit_selects_first 40 (memory_head session_state)). Defined.

Lemma release_of_unknown_process_witness :
  (forall b, b ∈ memory_head session_state -> is_allocated b = true ->
             process_id b <> "P9"%string) /\
  snd (releaseMemory "P9" session_state) = NoSuchProcess /\
  fst (releaseMemory "P9" session_state) = session_state.
Proof.
  assert (H : forall b, b ∈ memory_head session_state ->
                        is_allocated b = true -> process_id b <> "P9"%string).
  { intros b Hb Ha. simpl in Hb.
    repeat (apply elem_of_cons in Hb as [->|Hb]; [simpl in *; congruence|]).
    inversion Hb. }
  destruct (release_of_unknown_process "P9" session_state) as [Hiff Hsame].
  split; [exact H|].
  split; [apply Hiff, H|apply Hsame, Hiff, H].
Defined.

Lemma unknown_line_refused_witness :
  is_token SPACE_NEWLINE "release" /\
  ends_token SPACE_NEWLINE (String " " "P2") /\
  ~ is_verb "release" /\
  all_delimiters SPACE_NEWLINE (String " " (String "010" EmptyString)) = true /\
  executeLine (fun s => fst (decimal s)) ("release" ++ String " " "P2")%string
              session_state = Some session_state /\
  executeLine (fun s => fst (decimal s))
              (String " " (String "010" EmptyString)) session_state
  = Some session_state.
Proof.
  assert (Hw : is_token SPACE_NEWLINE "release")
    by (split; [discriminate|reflexivity]).
  assert (Ht : ends_token SPACE_NEWLINE (String " " "P2"))
    by (apply ends_token_space; reflexivity).
  assert (Hv : ~ is_verb "release")
    by (intros [H|[H|[H|[H|H]]]]; discriminate H).
  assert (Hb : all_delimiters SPACE_NEWLINE
                 (String " " (String "010" EmptyString)) = true)
    by reflexivity.
  destruct (unknown_line_refused (fun s => fst (decimal s)) session_state)
    as [Hblank Hword].
  repeat (split; [assumption|]).
  split; [exact (proj2 (Hword _ _ Hw Ht Hv))|exact (proj2 (Hblank _ Hb))].
Defined.

Lemma compaction_keeps_allocations_witness :
  bytes_in_use (compactMemory session_state) = bytes_in_use session_state /\
  memory_head (compactMemory session_state) !! 1%nat
  = Some (mkMemoryBlock 20 80 false "FREE") /\
  2%nat = length (memory_head (compactMemory session_state)).
Proof.
  destruct (compaction_keeps_allocations session_state) as (_ & Hb & Hlast).
  split; [exact Hb|].
  assert (Hi : memory_head (compactMemory session_state) !! 1%nat
               = Some (mkMemoryBlock 20 80 false "FREE")) by reflexivity.
  split; [exact Hi|].
  exact (Hlast 1%nat _ Hi eq_refl).
Defined.
